(** * transform_CSVtoANKI: the row-to-card transformation

    A shallow embedding of [transform_CSVtoANKI.py] (helpers, HTML builders
    and [process_row]) and the properties of the row-to-card transformation.

    Python strings are sequences of Unicode code points: [pystr] is a list of
    code points.  Dictionaries whose iteration order is never observed are
    [gmap]s, [set(...)] is a [gset]; the row, whose iteration order decides
    which header wins in [pick], is its list of items in insertion order. *)

From Stdlib Require Import String Ascii.
From stdpp Require Import base option list gmap sets.

Local Open Scope N_scope.
Local Open Scope list_scope.

(** ** Python strings *)

Module Py.

Abbreviation pystr := (list N).

(** A literal of the source (all of them are ASCII). *)
Definition lit (s : string) : pystr :=
  N_of_ascii <$> list_ascii_of_string s.

Definition newline : N := 10.     (* line feed, chr(10) *)
Definition space : N := 32.
Definition nbsp : N := 160.       (* U+00A0, no-break space *)
Definition bom : N := 65279.      (* U+FEFF, byte-order mark *)
Definition underscore : N := 95.
Definition pipe : N := 124.
Definition amp : N := 38.
Definition langle : N := 60.
Definition rangle : N := 62.
Definition dquote : N := 34.
Definition squote : N := 39.

(** [str.isspace] on one code point: the characters that [str.strip()] and
    [str.split()] (both without argument) treat as whitespace. *)
Definition isspace (c : N) : bool :=
  ((9 <=? c) && (c <=? 13)) || ((28 <=? c) && (c <=? 32))
  || (c =? 133) || (c =? 160) || (c =? 5760)
  || ((8192 <=? c) && (c <=? 8202))
  || (c =? 8232) || (c =? 8233) || (c =? 8239) || (c =? 8287)
  || (c =? 12288).

Fixpoint lstrip (s : pystr) : pystr :=
  match s with
  | [] => []
  | c :: s' => if isspace c then lstrip s' else s
  end.

Definition rstrip (s : pystr) : pystr := reverse (lstrip (reverse s)).

(** [s.strip()] *)
Definition strip (s : pystr) : pystr := rstrip (lstrip s).

(** [s.replace(old, new)] for a one-character [old]. *)
Definition replace (old : N) (new : pystr) (s : pystr) : pystr :=
  c ← s; if decide (c = old) then new else [c].

(** [s.split()]: the maximal runs of non-whitespace characters.  [cur] is
    the run being read, last character first. *)
Fixpoint split_ws_from (cur : pystr) (s : pystr) : list pystr :=
  match s with
  | [] => if cur is [] then [] else [reverse cur]
  | c :: s' =>
      if isspace c
      then (if cur is [] then [] else [reverse cur]) ++ split_ws_from [] s'
      else split_ws_from (c :: cur) s'
  end.

Definition split_ws (s : pystr) : list pystr := split_ws_from [] s.

(** [s.split(sep)] for a one-character [sep]: the pieces between the
    separators, empty pieces included (never the empty list). *)
Fixpoint split_on_from (cur : pystr) (sep : N) (s : pystr) : list pystr :=
  match s with
  | [] => [reverse cur]
  | c :: s' =>
      if decide (c = sep)
      then reverse cur :: split_on_from [] sep s'
      else split_on_from (c :: cur) sep s'
  end.

Definition split_on (sep : N) (s : pystr) : list pystr :=
  split_on_from [] sep s.

(** [sep.join(l)] *)
Fixpoint join (sep : pystr) (l : list pystr) : pystr :=
  match l with
  | [] => []
  | [x] => x
  | x :: rest => x ++ sep ++ join sep rest
  end.

(** [html.escape(s)] with its default [quote=True]: five replacements in
    this order, the ampersand first. *)
Definition escape (s : pystr) : pystr :=
  let s := replace amp (lit "&amp;") s in
  let s := replace langle (lit "&lt;") s in
  let s := replace rangle (lit "&gt;") s in
  let s := replace dquote (lit "&quot;") s in
  let s := replace squote (lit "&#x27;") s in
  s.

(** [string.ascii_uppercase] *)
Definition ascii_uppercase : pystr := lit "ABCDEFGHIJKLMNOPQRSTUVWXYZ".

(** ASCII lower-casing: what [str.lower] does on ASCII text. *)
Definition lower_ascii (s : pystr) : pystr :=
  (λ c, if (65 <=? c) && (c <=? 90) then c + 32 else c) <$> s.

End Py.
Import Py.

(** ** Exceptions

    The only operation of the transformation that can raise is the indexing
    [string.ascii_uppercase[i]] (an [IndexError] from index 26 on). *)

Inductive exc (A : Type) : Type :=
  | Returns (a : A)
  | IndexError.
Arguments Returns {A} a.
Arguments IndexError {A}.

#[export] Instance exc_ret : MRet exc := λ A a, Returns a.
#[export] Instance exc_bind : MBind exc := λ A B f m,
  match m with
  | Returns a => f a
  | IndexError => IndexError
  end.

(** [s[i]] on a string: a one-character string. *)
Definition getitem (s : pystr) (i : nat) : exc pystr :=
  match s !! i with
  | Some c => Returns [c]
  | None => IndexError
  end.

(** ** Rows

    A row of [csv.DictReader] is a dict: its items in insertion order, the
    keys pairwise distinct.  A key is a header, or [None]; the value under
    a header is a cell, or [None] for a cell the line does not have.  Under
    the key [None] the reader stores the surplus cells of a line; [pick]
    leaves that key out, so what is stored there is never read. *)

Abbreviation Row := (list (option pystr * option pystr)).

(** [row.keys()] *)
Definition keys (row : Row) : list (option pystr) := row.*1.

(** [row.get(k)]: [None] for a missing key as for a stored [None]. *)
Fixpoint get (row : Row) (k : option pystr) : option pystr :=
  match row with
  | [] => None
  | (k', v) :: row' => if decide (k' = k) then v else get row' k
  end.

Inductive reason : Set :=
  | missing_question
  | missing_correct_answer
  | not_enough_options
  | correct_answer_not_found.

#[export] Instance reason_eq_dec : EqDecision reason.
Proof. solve_decision. Defined.

(** The logical record [process_row] reads off a row (its six locals). *)
Record CanonicalFields : Type := {
  question : pystr;
  optionA : pystr;
  optionB : pystr;
  optionC : pystr;
  optionD : pystr;
  correctRaw : pystr
}.

(** ** Helpers *)

Definition normalize (s : option pystr) : pystr :=
  match s with
  | None => []
  | Some s => strip s
  end.

Definition matchkey (s : pystr) : pystr :=
  let s := normalize (Some s) in
  let s := replace nbsp (lit " ") s in
  let s := join (lit " ") (split_ws s) in
  s.

(** ** HTML builders *)

(** One option of the front: the block [build_front_html] appends for the
    option [opt] displayed under [letter]. *)
Definition option_block (letter opt : pystr) : pystr :=
  lit "<div style='margin:2px 0;'>"
  ++ lit "<span style='display:inline-block; width:24px;'>"
  ++ letter ++ lit ".</span>"
  ++ lit "<span>" ++ escape opt ++ lit "</span>"
  ++ lit "</div>".

(** The loop of [build_front_html] over [enumerate(options)], from index
    [i] on: the blocks it appends to [parts]. *)
Fixpoint option_blocks (i : nat) (options : list pystr) : exc (list pystr) :=
  match options with
  | [] => Returns []
  | opt :: rest =>
      letter ← getitem ascii_uppercase i;
      blocks ← option_blocks (S i) rest;
      Returns (option_block letter opt :: blocks)
  end.

Definition build_front_html (question : pystr) (options : list pystr)
  : exc pystr :=
  let q := replace newline (lit "<br>") (escape question) in
  let parts :=
    [ lit "<div style='text-align:left;'>";
      lit "<div style='font-weight:700; margin-bottom:8px;'>" ++ q
        ++ lit "</div>" ] in
  parts ←
    (if options is [] then Returns parts
     else
       blocks ← option_blocks 0 options;
       Returns (parts ++ [lit "<div>"] ++ blocks ++ [lit "</div>"]));
  Returns (concat (parts ++ [lit "</div>"])).

Definition build_back_html (correct_letters correct_texts : list pystr)
  : pystr :=
  let letters := join (lit ", ") correct_letters in
  let answers_html :=
    concat ((λ t, lit "<div style='margin-top:4px;'>"
                  ++ replace newline (lit "<br>") (escape t)
                  ++ lit "</div>") <$> correct_texts) in
  lit "<div style='text-align:left;'>"
  ++ lit "<div style='margin-top:8px;'><b>Richtige Antwort:</b> "
  ++ escape letters ++ lit "</div>"
  ++ answers_html
  ++ lit "</div>".

(** The back of a free-text card, built in place by [process_row]. *)
Definition freetext_back (correct_raw : pystr) : pystr :=
  lit "<div style='text-align:left;'>"
  ++ lit "<div style='margin-top:8px;'><b>Antwort:</b></div>"
  ++ lit "<div style='margin-top:4px;'>"
  ++ replace newline (lit "<br>") (escape correct_raw) ++ lit "</div>"
  ++ lit "</div>".

(** ** Row processing *)

(** [[opt for opt in raw_options if opt]] *)
Definition nonempty_options (cf : CanonicalFields) : list pystr :=
  filter (λ opt, opt ≠ [])
    [optionA cf; optionB cf; optionC cf; optionD cf].

(** [[p.strip() for p in correct_raw.split("|") if p.strip()]] *)
Definition correct_parts (correct_raw : pystr) : list pystr :=
  strip <$> filter (λ p, strip p ≠ []) (split_on pipe correct_raw).

(** [{matchkey(opt): opt for opt in options}] *)
Definition option_key_to_text (options : list pystr) : gmap pystr pystr :=
  foldl (λ m opt, <[matchkey opt := opt]> m) ∅ options.

(** [list(enumerate(options))] *)
Definition enumerate (options : list pystr) : list (nat * pystr) :=
  imap (λ i opt, (i, opt)) options.

(** The loop that flags the shuffled options, from display position [i] on:
    the letters and the texts it appends. *)
Fixpoint flag_correct (i : nat) (indexed : list (nat * pystr))
    (correct_key_set : gset pystr) : exc (list pystr * list pystr) :=
  match indexed with
  | [] => Returns ([], [])
  | (_, opt_text) :: rest =>
      if decide (matchkey opt_text ∈ correct_key_set) then
        letter ← getitem ascii_uppercase i;
        '(correct_letters, correct_texts) ← flag_correct (S i) rest correct_key_set;
        Returns (letter :: correct_letters, opt_text :: correct_texts)
      else flag_correct (S i) rest correct_key_set
  end.

Section Transform.

(** [str.lower], Python's Unicode lower-casing. *)
Variable lower : pystr → pystr.

(** [random.shuffle] on the list of indexed options: the order it leaves
    the list in. *)
Variable shuffle : list (nat * pystr) → list (nat * pystr).

Definition normkey (k : pystr) : pystr :=
  let k := lower (normalize (Some k)) in
  let k := replace bom [] k in
  let k := replace underscore (lit " ") k in
  let k := join (lit " ") (split_ws k) in
  k.

(** [{normkey(k): k for k in row.keys() if k is not None}] *)
Definition norm_map (row : Row) : gmap pystr pystr :=
  foldl (λ m k, <[normkey k := k]> m) ∅ (omap id (keys row)).

Fixpoint pick (row : Row) (wanted : list pystr) : option pystr :=
  match wanted with
  | [] => None
  | want :: rest =>
      match norm_map row !! normkey want with
      | Some actual => get row (Some actual)
      | None => pick row rest
      end
  end.

(** Lines 102-107 of [process_row]. *)
Definition canonical_fields (row : Row) : CanonicalFields :=
  {| question := normalize (pick row [lit "Frage"; lit "Question"]);
     optionA := normalize (pick row [lit "Antwort A"]);
     optionB := normalize (pick row [lit "Antwort B"]);
     optionC := normalize (pick row [lit "Antwort C"]);
     optionD := normalize (pick row [lit "Antwort D"]);
     correctRaw := normalize (pick row [lit "Richtige Antwort"]) |}.

(** Lines 109-165 of [process_row]: the pair [(card, reason)] it returns. *)
Definition process_fields (cf : CanonicalFields)
  : exc (option (pystr * pystr) * option reason) :=
  if decide (question cf = []) then
    Returns (None, Some missing_question)
  else
  let options := nonempty_options cf in
  if decide (length options = 0%nat) then
    if decide (correctRaw cf = []) then
      Returns (None, Some missing_correct_answer)
    else
      front ← build_front_html (question cf) [];
      Returns (Some (front, freetext_back (correctRaw cf)), None)
  else
  if decide (length options < 2)%nat then
    Returns (None, Some not_enough_options)
  else
  if decide (correctRaw cf = []) then
    Returns (None, Some missing_correct_answer)
  else
  let parts := correct_parts (correctRaw cf) in
  if decide (parts = []) then
    Returns (None, Some missing_correct_answer)
  else
  let correct_keys := matchkey <$> parts in
  if decide (Exists (λ k, option_key_to_text options !! k = None) correct_keys)
  then Returns (None, Some correct_answer_not_found)
  else
  let indexed := shuffle (enumerate options) in
  let shuffled_options := indexed.*2 in
  let correct_key_set : gset pystr := list_to_set correct_keys in
  '(correct_letters, correct_texts) ← flag_correct 0 indexed correct_key_set;
  if decide (correct_letters = []) then
    Returns (None, Some correct_answer_not_found)
  else
    front ← build_front_html (question cf) shuffled_options;
    Returns (Some (front, build_back_html correct_letters correct_texts), None).

Definition process_row (row : Row)
  : exc (option (pystr * pystr) * option reason) :=
  process_fields (canonical_fields row).

End Transform.

(** ** The shuffle of the standard library

    [random.shuffle] as CPython writes it: for [i] from [len(x) - 1] down to
    [1], exchange [x[i]] with [x[j]] for a random [j] in [0..i].  The random
    source is [randbelow], reduced to the range it promises. *)

Definition swap {A} (x : list A) (i j : nat) : list A :=
  match x !! i, x !! j with
  | Some a, Some b => <[j:=a]> (<[i:=b]> x)
  | _, _ => x
  end.

Fixpoint random_shuffle_from {A} (randbelow : nat → nat) (i : nat)
    (x : list A) : list A :=
  match i with
  | O => x
  | S i' =>
      let j := (randbelow (S i) `mod` S i)%nat in
      random_shuffle_from randbelow i' (swap x i j)
  end.

Definition random_shuffle {A} (randbelow : nat → nat) (x : list A) : list A :=
  random_shuffle_from randbelow (length x - 1)%nat x.

(** ** Notions the properties are stated with *)

(** The letters of the display positions [i], ..., [i + n - 1]. *)
Definition letters_from (i n : nat) : list pystr :=
  (λ c, [c]) <$> take n (drop i ascii_uppercase).

Definition display_letters (n : nat) : list pystr := letters_from 0 n.

(** The displayed options that carry a correct key, each with the letter it
    is displayed under. *)
Definition flagged (correct_key_set : gset pystr) (displayed : list pystr)
  : list (pystr * pystr) :=
  filter (λ lt, matchkey lt.2 ∈ correct_key_set)
    (zip (display_letters (length displayed)) displayed).

(** The front of a card: the question line, then, when there are options,
    one block per displayed option under the letters A, B, C, ... *)
Definition front_layout (question : pystr) (displayed : list pystr) : pystr :=
  concat
    ([ lit "<div style='text-align:left;'>";
       lit "<div style='font-weight:700; margin-bottom:8px;'>"
         ++ replace newline (lit "<br>") (escape question) ++ lit "</div>" ]
     ++ (if displayed is [] then []
         else [lit "<div>"]
              ++ zip_with option_block
                   (display_letters (length displayed)) displayed
              ++ [lit "</div>"])
     ++ [lit "</div>"]).

(** A word: a non-empty text without whitespace. *)
Definition word (w : pystr) : Prop :=
  w ≠ [] ∧ Forall (λ c, isspace c = false) w.

(** Texts that differ only in their whitespace: a no-break space for a
    space, the length of a run of whitespace, whitespace around the text. *)
Inductive ws_variant : pystr → pystr → Prop :=
  | ws_nbsp l r : ws_variant (l ++ nbsp :: r) (l ++ space :: r)
  | ws_run l w w' r :
      isspace w = true → isspace w' = true →
      ws_variant (l ++ w :: r) (l ++ w :: w' :: r)
  | ws_leading w s : isspace w = true → ws_variant s (w :: s)
  | ws_trailing w s : isspace w = true → ws_variant s (s ++ [w])
  | ws_refl s : ws_variant s s
  | ws_sym s t : ws_variant s t → ws_variant t s
  | ws_trans s t u : ws_variant s t → ws_variant t u → ws_variant s u.

Section FieldResolverSpec.

Variable lower : pystr → pystr.

(** The headers of a row, in row order. *)
Definition headers (row : Row) : list pystr := omap id (keys row).

(** The headers whose normalized form is that of the candidate [want]. *)
Definition matching_headers (row : Row) (want : pystr) : list pystr :=
  filter (λ h, normkey lower h = normkey lower want) (headers row).

(** The field resolver as the specification words it: the value of the
    first candidate whose normalized form is that of some header, absence
    when there is none.  Of several headers with that normalized form the
    last one of the row is read. *)
Definition pick_spec (row : Row) (wanted : list pystr) : option pystr :=
  match list_find (λ want, matching_headers row want ≠ []) wanted with
  | Some (_, want) =>
      actual ← last (matching_headers row want); get row (Some actual)
  | None => None
  end.

End FieldResolverSpec.

Section RowNotions.

Variable lower : pystr → pystr.
Variable shuffle : list (nat * pystr) → list (nat * pystr).

(** [options], [parts], [correct_key_set], [indexed] and
    [shuffled_options] of [process_row] on a row. *)
Definition row_options (row : Row) : list pystr :=
  nonempty_options (canonical_fields lower row).

Definition row_parts (row : Row) : list pystr :=
  correct_parts (correctRaw (canonical_fields lower row)).

Definition row_key_set (row : Row) : gset pystr :=
  list_to_set (matchkey <$> row_parts row).

Definition row_indexed (row : Row) : list (nat * pystr) :=
  shuffle (enumerate (row_options row)).

Definition row_displayed (row : Row) : list pystr := (row_indexed row).*2.

End RowNotions.

(** A row with its headers rewritten by [f], its cells as they are. *)
Definition rename (f : pystr → pystr) (row : Row) : Row :=
  (λ item : option pystr * option pystr, (f <$> item.1, item.2)) <$> row.

(** A header variant: a byte-order mark in front, an underscore and a
    space behind. *)
Definition header_variant (h : pystr) : pystr := [bom] ++ h ++ lit "_ ".

(** ** Example rows *)

Definition cell (header value : string) : option pystr * option pystr :=
  (Some (lit header), Some (lit value)).

(** Example 1 of the specification, under variant headers. *)
Definition row_sum : Row :=
  [ cell " FRAGE " "2+2?"; cell "antwort_a" "3"; cell "Antwort  B" " 4 ";
    cell "Antwort C" "5"; cell "Antwort D" "6";
    cell "Richtige Antwort" "4" ].

(** Example 3: no option, a free-text answer. *)
Definition row_freetext : Row :=
  [ cell "Frage" "Why do things fall?"; cell "Antwort A" "";
    cell "Richtige Antwort" "Because gravity." ].

(** Example 4: a correct answer that is no option. *)
Definition row_unmapped : Row :=
  [ cell "Frage" "Which?"; cell "Antwort A" "A"; cell "Antwort B" "B";
    cell "Antwort C" "C"; cell "Richtige Antwort" "A|Z" ].

(** Example 5: no question; no option either, but an answer. *)
Definition row_no_question : Row :=
  [ cell "Frage" ""; cell "Antwort A" ""; cell "Antwort B" "";
    cell "Antwort C" ""; cell "Antwort D" "";
    cell "Richtige Antwort" "Because gravity." ].

(** Two options with one matching key, named once as correct. *)
Definition row_duplicate : Row :=
  [ cell "Frage" "Which?"; cell "Antwort A" "x y"; cell "Antwort B" "x  y";
    cell "Antwort C" "z"; cell "Richtige Antwort" "x y" ].

(** An option and a correct answer holding a line feed. *)
Definition row_multiline : Row :=
  [ (Some (lit "Frage"), Some (lit "Q"));
    (Some (lit "Antwort A"), Some (lit "x" ++ [newline] ++ lit "y"));
    (Some (lit "Antwort B"), Some (lit "z"));
    (Some (lit "Richtige Antwort"), Some (lit "x" ++ [newline] ++ lit "y")) ].

(** [row_sum] with its correct answer repeated, padded and between empty
    pieces, and with its options in other fields. *)
Definition row_sum_repeated : Row :=
  [ cell "Question" "2+2?"; cell "Antwort A" "3"; cell "Antwort B" "4";
    cell "Antwort C" "5"; cell "Antwort D" "6";
    cell "Richtige Antwort" " 4 | 4|| 4" ].

(** The options of [row_multiline]. *)
Definition options_multiline : list pystr :=
  [lit "x" ++ [newline] ++ lit "y"; lit "z"].

(** A random source for the examples. *)
Definition randbelow_example (n : nat) : nat := (2 * n + 1)%nat.

(** What [html.escape] writes for one character: its entity for the five
    characters of markup, the character itself otherwise. *)
Definition entity_of (c : N) : pystr :=
  if decide (c = amp) then lit "&amp;"
  else if decide (c = langle) then lit "&lt;"
  else if decide (c = rangle) then lit "&gt;"
  else if decide (c = dquote) then lit "&quot;"
  else if decide (c = squote) then lit "&#x27;"
  else [c].

(** The characters the HTML builders write of their own: those of their
    literals, of the entities of [html.escape] and of the display
    letters. *)
Definition template_alphabet : pystr :=
  lit "ABCDEFGHIJKLMNOPQRSTUVWXYZabcdefghijklmnopqrstuvwxyz0123456789 <>/=':;.,-&#".

(** ** Folders

    The loops of [process_folder] and [main].  What they take from the file
    system is an input: the [*.csv] files of a folder in the order
    [sorted(folder.glob("*.csv"))] yields them, each with the rows
    [read_csv] returns for it.  What they write is part of the result. *)

Definition TARGET_FOLDERS : list pystr :=
  [ lit "SRC_Gesamtfragenkatalog";
    lit "UBI_Ergaenzungsfragenkatalog";
    lit "UBI_Gesamtfragenkatalog";
    lit "FKN_Fachkundenachweis" ].

(** [name.startswith(prefixes)] for a tuple of prefixes. *)
Definition startswith (name : pystr) (prefixes : list pystr) : bool :=
  existsb (λ p, bool_decide (take (length p) name = p)) prefixes.

(** The files [process_folder] passes over. *)
Definition excluded (name : pystr) : bool :=
  startswith name [lit "MASTER__"; lit "SKIPPED__"; lit "ANKI-IMPORT__"].

(** The names of the two files [process_folder] writes in a folder. *)
Definition out_file_name (folder_name : pystr) : pystr :=
  lit "ANKI-IMPORT__" ++ folder_name ++ lit ".csv".

Definition skip_file_name (folder_name : pystr) : pystr :=
  lit "SKIPPED__" ++ folder_name ++ lit ".csv".

(** An entry of [skipped]: the dict with the keys [file], [row], [reason]
    and [question]. *)
Record SkipRecord : Type := {
  skip_file : pystr;
  skip_row : nat;
  skip_reason : option reason;
  skip_question : pystr
}.

(** The locals [cards], [skipped], [rows_seen] and [files_seen]. *)
Record Tally : Type := {
  cards : list (pystr * pystr);
  skipped : list SkipRecord;
  rows_seen : nat;
  files_seen : nat
}.

(** What [process_folder] leaves behind: the rows of the import file, the
    rows of the skip file when it writes one, and the triple it returns. *)
Record FolderResult : Type := {
  out_rows : list (pystr * pystr);
  skip_rows : option (list SkipRecord);
  counts : nat * nat * nat
}.

Section Folder.

Variable lower : pystr → pystr.

(** [shuffles n] is the order in which [random.shuffle] leaves its list
    when it is called for the [n]-th row processed: the state of the
    generator at that moment decides it. *)
Variable shuffles : nat → list (nat * pystr) → list (nat * pystr).

(** The loop over [enumerate(rows, start=2)]; [calls] rows were processed
    before this folder. *)
Fixpoint process_rows (calls : nat) (name : pystr) (idx : nat)
    (rows : list Row) (st : Tally) : exc Tally :=
  match rows with
  | [] => Returns st
  | row :: rest =>
      '(card, reason) ←
        process_row lower (shuffles (calls + rows_seen st)) row;
      let st' :=
        match card with
        | Some c =>
            {| cards := cards st ++ [c];
               skipped := skipped st;
               rows_seen := S (rows_seen st);
               files_seen := files_seen st |}
        | None =>
            {| cards := cards st;
               skipped :=
                 skipped st
                 ++ [ {| skip_file := name;
                         skip_row := idx;
                         skip_reason := reason;
                         skip_question :=
                           normalize
                             (pick lower row [lit "Frage"; lit "Question"]) |} ];
               rows_seen := S (rows_seen st);
               files_seen := files_seen st |}
        end in
      process_rows calls name (S idx) rest st'
  end.

(** The loop over the files of the folder. *)
Fixpoint process_files (calls : nat) (files : list (pystr * list Row))
    (st : Tally) : exc Tally :=
  match files with
  | [] => Returns st
  | (name, rows) :: rest =>
      if excluded name then process_files calls rest st
      else
        st' ← process_rows calls name 2 rows
                {| cards := cards st;
                   skipped := skipped st;
                   rows_seen := rows_seen st;
                   files_seen := S (files_seen st) |};
        process_files calls rest st'
  end.

Definition process_folder (calls : nat) (files : list (pystr * list Row))
  : exc FolderResult :=
  st ← process_files calls files
         {| cards := []; skipped := []; rows_seen := 0; files_seen := 0 |};
  Returns
    {| out_rows := cards st;
       skip_rows := if skipped st is [] then None else Some (skipped st);
       counts := (rows_seen st, length (cards st), length (skipped st)) |}.

(** The loop of [main] over the folders, [listing] giving the files of
    each; the totals it prints. *)
Fixpoint main_from (listing : pystr → list (pystr * list Row))
    (folders : list pystr) (totals : nat * nat * nat)
  : exc (nat * nat * nat) :=
  match folders with
  | [] => Returns totals
  | folder :: rest =>
      let '(total_rows, total_cards, total_skipped) := totals in
      res ← process_folder total_rows (listing folder);
      let '(r, c, s) := counts res in
      main_from listing rest
        (total_rows + r, total_cards + c, total_skipped + s)%nat
  end.

Definition main (listing : pystr → list (pystr * list Row))
  : exc (nat * nat * nat) :=
  main_from listing TARGET_FOLDERS (0, 0, 0)%nat.

End Folder.

(** [csv.writer(f, delimiter=OUT_DELIMITER, quoting=csv.QUOTE_ALL)] on rows
    of texts: every field is written between double quotes, a double quote
    of the field doubled; the fields of a row are joined by the delimiter,
    and the row is ended by the line terminator of the writer, a carriage
    return and a line feed. *)
Definition OUT_DELIMITER : pystr := lit ";".

Definition carriage_return : N := 13.

Definition quoted (field : pystr) : pystr :=
  [dquote] ++ replace dquote [dquote; dquote] field ++ [dquote].

Definition writerow (fields : list pystr) : pystr :=
  join OUT_DELIMITER (quoted <$> fields) ++ [carriage_return; newline].

Definition writerows (rows : list (list pystr)) : pystr :=
  concat (writerow <$> rows).

(** The text of the import file: [writer.writerows(cards)]. *)
Definition out_file_text (res : FolderResult) : pystr :=
  writerows ((λ c, [c.1; c.2]) <$> out_rows res).

(** The non-excluded files of a listing, and their rows. *)
Definition processed_files (files : list (pystr * list Row))
  : list (pystr * list Row) :=
  filter (λ f, excluded f.1 = false) files.

Definition row_count (files : list (pystr * list Row)) : nat :=
  sum_list ((λ f, length f.2) <$> processed_files files).

Section FolderNotions.

Variable lower : pystr → pystr.
Variable shuffles : nat → list (nat * pystr) → list (nat * pystr).

(** [c] is the card [process_row] returns for [row] at its [n]-th call. *)
Definition row_card (n : nat) (row : Row) (c : pystr * pystr) : Prop :=
  process_row lower (shuffles n) row = Returns (Some c, None).

(** [r] is the skip record of [row], line [idx] of the file [name],
    rejected by [process_row] at its [n]-th call. *)
Definition row_skip (name : pystr) (idx n : nat) (row : Row)
    (r : SkipRecord) : Prop :=
  ∃ rs, process_row lower (shuffles n) row = Returns (None, Some rs)
        ∧ r = {| skip_file := name;
                 skip_row := idx;
                 skip_reason := Some rs;
                 skip_question := question (canonical_fields lower row) |}.

(** [row] is row [i] (from 0) of a processed file [name] of the folder. *)
Definition folder_row (files : list (pystr * list Row)) (name : pystr)
    (i : nat) (row : Row) : Prop :=
  ∃ rows, (name, rows) ∈ files ∧ excluded name = false
          ∧ rows !! i = Some row.

End FolderNotions.

(** Two files of a folder, and an import file left by an earlier run. *)
Definition folder_example : list (pystr * list Row) :=
  [ (lit "ANKI-IMPORT__SRC.csv", [row_sum]);
    (lit "a.csv", [row_sum; row_unmapped; row_freetext]);
    (lit "b.csv", [row_no_question; row_duplicate]) ].

(** Every row is shuffled by the generator of the examples. *)
Definition shuffles_example (n : nat)
  : list (nat * pystr) → list (nat * pystr) :=
  random_shuffle (λ k, randbelow_example (k + n)).

(** The rows of a folder in the order of the loops: those of the processed
    files, file after file, each with the name of its file and its line
    number, the header being line 1. *)
Definition numbered_rows (files : list (pystr * list Row))
  : list (pystr * nat * Row) :=
  f ← processed_files files;
  imap (λ i row, (f.1, (2 + i)%nat, row)) f.2.

(** What a row leaves behind: a card or a skip record. *)
Definition row_outcome (lower : pystr → pystr)
    (shuffles : nat → list (nat * pystr) → list (nat * pystr))
    (name : pystr) (idx n : nat) (row : Row)
    (o : pystr * pystr + SkipRecord) : Prop :=
  match o with
  | inl c => row_card lower shuffles n row c
  | inr r => row_skip lower shuffles name idx n row r
  end.

Definition cards_of (outcomes : list (pystr * pystr + SkipRecord))
  : list (pystr * pystr) :=
  omap (λ o, match o with inl c => Some c | inr _ => None end) outcomes.

Definition skips_of (outcomes : list (pystr * pystr + SkipRecord))
  : list SkipRecord :=
  omap (λ o, match o with inl _ => None | inr r => Some r end) outcomes.

(** A disk on which only the first target folder has files. *)
Definition listing_example (folder : pystr) : list (pystr * list Row) :=
  if decide (folder = lit "SRC_Gesamtfragenkatalog") then folder_example
  else [].

(** * Properties *)

(** ** Whitespace splitting *)

Section SplitWs.

Implicit Types (s l r cur : pystr) (w c : N).

(** Reaching a whitespace character ends the current word, as reaching
    the end of the string does. *)
Lemma split_ws_from_space cur l w r :
  isspace w = true →
  split_ws_from cur (l ++ w :: r) = split_ws_from cur l ++ split_ws r.
Proof.
  intros Hw. revert cur.
  induction l as [|c l IH]; intros cur; simpl.
  - by rewrite Hw.
  - destruct (isspace c); [|apply IH].
    by rewrite IH, (assoc_L (++)).
Qed.

Lemma split_ws_space l w r :
  isspace w = true → split_ws (l ++ w :: r) = split_ws l ++ split_ws r.
Proof. apply split_ws_from_space. Qed.

Lemma split_ws_cons_space w s :
  isspace w = true → split_ws (w :: s) = split_ws s.
Proof. intros Hw. apply (split_ws_space [] w s Hw). Qed.

Lemma split_ws_snoc_space s w :
  isspace w = true → split_ws (s ++ [w]) = split_ws s.
Proof.
  intros Hw. rewrite (split_ws_space s w [] Hw). apply (right_id_L [] (++)).
Qed.

Lemma split_ws_lstrip s : split_ws (lstrip s) = split_ws s.
Proof.
  induction s as [|c s IH]; [done|]. simpl.
  destruct (isspace c) eqn:Hc; [|done].
  by rewrite IH, split_ws_cons_space.
Qed.

(** [rstrip] cuts a run of whitespace off the end. *)
Lemma rstrip_tail s :
  ∃ t, s = rstrip s ++ t ∧ Forall (λ c, isspace c = true) t.
Proof.
  unfold rstrip.
  assert (∀ u, ∃ t, u = t ++ lstrip u ∧ Forall (λ c, isspace c = true) t)
    as Hl.
  { induction u as [|c u [t [Hu Ht]]]; [by exists []|]. simpl.
    destruct (isspace c) eqn:Hc; [|by exists []].
    exists (c :: t). split; [by rewrite Hu at 1 | by constructor]. }
  destruct (Hl (reverse s)) as [t [Hs Ht]].
  exists (reverse t). split.
  - rewrite <- reverse_app, <- Hs. by rewrite reverse_involutive.
  - by apply Forall_reverse.
Qed.

Lemma split_ws_app_spaces s t :
  Forall (λ c, isspace c = true) t → split_ws (s ++ t) = split_ws s.
Proof.
  intros Ht. revert s. induction Ht as [|w t Hw _ IH]; intros s.
  - by rewrite (right_id_L [] (++)).
  - rewrite (cons_middle w s t), (assoc_L (++)), IH.
    by apply split_ws_snoc_space.
Qed.

Lemma split_ws_rstrip s : split_ws (rstrip s) = split_ws s.
Proof.
  destruct (rstrip_tail s) as [t [Hs Ht]].
  rewrite Hs at 2. by rewrite split_ws_app_spaces.
Qed.

Lemma split_ws_strip s : split_ws (strip s) = split_ws s.
Proof. unfold strip. by rewrite split_ws_rstrip, split_ws_lstrip. Qed.

(** Turning no-break spaces into spaces changes no word: both are
    whitespace. *)
Lemma split_ws_from_replace_nbsp cur s :
  split_ws_from cur (replace nbsp (lit " ") s) = split_ws_from cur s.
Proof.
  revert cur. induction s as [|c s IH]; intros cur; [done|].
  unfold replace in *. cbn [mbind list_bind]. fold (@mbind list _).
  change (mbind ?f s) with (s ≫= f) in *.
  destruct (decide (c = nbsp)) as [->|Hc]; simpl.
  - by rewrite IH.
  - destruct (isspace c); by rewrite IH.
Qed.

(** The matching key is the words of the text, joined by one space. *)
Lemma matchkey_words s : matchkey s = join (lit " ") (split_ws s).
Proof.
  unfold matchkey, normalize, split_ws.
  rewrite split_ws_from_replace_nbsp. fold (split_ws (strip s)).
  by rewrite split_ws_strip.
Qed.

End SplitWs.

(** ** Matching keys *)

Lemma split_ws_variant s t : ws_variant s t → split_ws s = split_ws t.
Proof.
  induction 1 as [l r|l w w' r Hw Hw'|w s Hw|w s Hw| |s t _ IH|s t u _ IH1 _ IH2].
  - by rewrite !split_ws_space.
  - rewrite !split_ws_space by done. by rewrite split_ws_cons_space.
  - by rewrite split_ws_cons_space.
  - by rewrite split_ws_snoc_space.
  - done.
  - done.
  - congruence.
Qed.

Lemma option_key_to_text_is_Some options k :
  is_Some (option_key_to_text options !! k) ↔ k ∈ matchkey <$> options.
Proof.
  unfold option_key_to_text.
  assert (∀ m : gmap pystr pystr,
    is_Some (foldl (λ m opt, <[matchkey opt:=opt]> m) m options !! k)
    ↔ is_Some (m !! k) ∨ k ∈ matchkey <$> options) as Hgen.
  { induction options as [|o os IH]; intros m; simpl.
    - rewrite elem_of_nil. tauto.
    - rewrite IH, lookup_insert_is_Some, elem_of_cons.
      fold (matchkey <$> os).
      destruct (decide (matchkey o = k)); intuition congruence. }
  rewrite Hgen, lookup_empty, is_Some_alt. tauto.
Qed.

Lemma option_key_to_text_None options k :
  option_key_to_text options !! k = None ↔ k ∉ matchkey <$> options.
Proof. by rewrite eq_None_not_Some, option_key_to_text_is_Some. Qed.

(** C7. Texts that differ only by no-break spaces versus regular spaces, by
    the length of whitespace runs or by surrounding whitespace have equal
    matching keys; hence an option text and a correct-answer part that are
    such variants of each other are the same answer: the part is found
    among the option keys, and the option is flagged by the part's key. *)
Theorem matchkey_ws_variant (s t : pystr) :
  ws_variant s t →
  matchkey s = matchkey t
  ∧ (∀ options : list pystr, s ∈ options →
       is_Some (option_key_to_text options !! matchkey t))
  ∧ (∀ parts : list pystr, t ∈ parts →
       matchkey s ∈ (list_to_set (matchkey <$> parts) : gset pystr)).
Proof.
  intros Hst.
  assert (matchkey s = matchkey t) as Heq.
  { rewrite !matchkey_words. f_equal. by apply split_ws_variant. }
  split; [done|]. split.
  - intros options Hs. apply option_key_to_text_is_Some.
    rewrite <- Heq. by apply list_elem_of_fmap_2.
  - intros parts Ht. apply elem_of_list_to_set.
    rewrite Heq. by apply list_elem_of_fmap_2.
Qed.

(** The text "a b" written with a no-break space and padded, against the
    plain "a b". *)
Lemma matchkey_ws_variant_witness :
  matchkey ([space] ++ lit "a" ++ [nbsp; space] ++ lit "b")
  = matchkey (lit "a b")
  ∧ (∀ options : list pystr,
       [space] ++ lit "a" ++ [nbsp; space] ++ lit "b" ∈ options →
       is_Some (option_key_to_text options !! matchkey (lit "a b")))
  ∧ (∀ parts : list pystr, lit "a b" ∈ parts →
       matchkey ([space] ++ lit "a" ++ [nbsp; space] ++ lit "b")
       ∈ (list_to_set (matchkey <$> parts) : gset pystr)).
Proof.
  apply matchkey_ws_variant.
  apply ws_sym.
  eapply ws_trans; [apply (ws_run (lit "a") space space (lit "b")); done|].
  eapply ws_trans; [apply ws_sym, (ws_nbsp (lit "a") (space :: lit "b"))|].
  apply (ws_leading space); done.
Defined.

(** ** Joined words *)

Section Words.

Implicit Types (s w cur sep : pystr) (ws : list pystr) (c : N).

Lemma split_ws_from_words cur s :
  Forall (λ c, isspace c = false) cur →
  Forall word (split_ws_from cur s).
Proof.
  assert (∀ cur, Forall (λ c, isspace c = false) cur →
            Forall word (if cur is [] then [] else [reverse cur])) as Hflush.
  { intros [|c cur'] Hcur; [done|]. repeat constructor.
    - intros Hnil. apply (f_equal length) in Hnil.
      rewrite length_reverse in Hnil. done.
    - by apply Forall_reverse. }
  revert cur. induction s as [|c s IH]; intros cur Hcur; simpl.
  - by apply Hflush.
  - destruct (isspace c) eqn:Hc.
    + apply Forall_app. split; [by apply Hflush|by apply IH].
    + apply IH. by constructor.
Qed.

Lemma split_ws_words s : Forall word (split_ws s).
Proof. by apply split_ws_from_words. Qed.

Lemma split_ws_from_nonspace cur w s :
  Forall (λ c, isspace c = false) w →
  split_ws_from cur (w ++ s) = split_ws_from (reverse w ++ cur) s.
Proof.
  intros Hw. revert cur. induction Hw as [|c w Hc _ IH]; intros cur; [done|].
  simpl. rewrite Hc, IH, reverse_cons. by rewrite <- (assoc_L (++)).
Qed.

Lemma split_ws_word w : word w → split_ws w = [w].
Proof.
  intros [Hne Hw]. unfold split_ws.
  rewrite <- (right_id_L [] (++) w) at 1.
  rewrite split_ws_from_nonspace by done. simpl.
  rewrite (right_id_L [] (++)), reverse_involutive.
  destruct (reverse w) eqn:Hr; [|done].
  apply (f_equal length) in Hr. rewrite length_reverse in Hr.
  by destruct w.
Qed.

(** Splitting undoes joining by one space. *)
Lemma split_ws_join ws :
  Forall word ws → split_ws (join (lit " ") ws) = ws.
Proof.
  induction 1 as [|w ws Hw Hws IH]; [done|].
  destruct ws as [|w' ws]; [by apply split_ws_word|].
  change (join (lit " ") (w :: w' :: ws))
    with (w ++ space :: join (lit " ") (w' :: ws)).
  rewrite split_ws_space by done. by rewrite IH, split_ws_word.
Qed.

Lemma lstrip_head c s : isspace c = false → lstrip (c :: s) = c :: s.
Proof. intros Hc. simpl. by rewrite Hc. Qed.

Lemma rstrip_last s c :
  last s = Some c → isspace c = false → rstrip s = s.
Proof.
  intros [s' ->]%last_Some Hc. unfold rstrip.
  by rewrite reverse_snoc, lstrip_head, reverse_cons, reverse_involutive.
Qed.

Lemma join_last ws :
  Forall word ws → ws ≠ [] →
  ∃ c, last (join (lit " ") ws) = Some c ∧ isspace c = false.
Proof.
  induction 1 as [|w ws [Hne Hw] Hws IH]; intros Hnil; [done|].
  destruct ws as [|w' ws].
  - simpl. destruct (last w) as [c|] eqn:Hl; [|by apply last_None in Hl].
    exists c. split; [done|].
    by apply (proj1 (Forall_forall _ _) Hw), last_Some_elem_of.
  - destruct IH as (c & Hc & Hsp); [done|]. exists c. split; [|done].
    change (join (lit " ") (w :: w' :: ws))
      with (w ++ lit " " ++ join (lit " ") (w' :: ws)).
    by rewrite !last_app, Hc.
Qed.

(** Words joined by one space have no whitespace around them. *)
Lemma strip_join ws :
  Forall word ws → strip (join (lit " ") ws) = join (lit " ") ws.
Proof.
  intros Hws. destruct ws as [|w ws]; [done|].
  destruct (join_last (w :: ws)) as (c & Hc & Hsp); [done..|].
  unfold strip.
  assert (lstrip (join (lit " ") (w :: ws)) = join (lit " ") (w :: ws)) as ->.
  { apply Forall_cons_1 in Hws as [[Hne Hw] _].
    destruct w as [|c' w]; [done|]. apply Forall_cons_1 in Hw as [Hc' _].
    destruct ws; simpl; by rewrite Hc'. }
  by apply (rstrip_last _ c).
Qed.

Lemma elem_of_split_ws_from c w cur s :
  w ∈ split_ws_from cur s → c ∈ w → c ∈ cur ∨ c ∈ s.
Proof.
  assert (∀ cur, w ∈ (if cur is [] then [] else [reverse cur]) →
            c ∈ w → c ∈ cur) as Hflush.
  { intros [|c' cur'] Hin Hc; [by apply elem_of_nil in Hin|].
    apply list_elem_of_singleton in Hin as ->. by apply elem_of_reverse. }
  revert cur. induction s as [|c' s IH]; intros cur Hin Hc; simpl in Hin.
  - left. by apply Hflush.
  - destruct (isspace c').
    + apply elem_of_app in Hin as [Hin|Hin]; [left; by apply Hflush|].
      destruct (IH [] Hin Hc) as [Hnil|Hs]; [by apply elem_of_nil in Hnil|].
      right. by right.
    + destruct (IH (c' :: cur) Hin Hc) as [Hcur|Hs]; [|right; by right].
      apply elem_of_cons in Hcur as [->|Hcur]; [right; by left|by left].
Qed.

Lemma elem_of_join c sep ws :
  c ∈ join sep ws → c ∈ sep ∨ ∃ w, w ∈ ws ∧ c ∈ w.
Proof.
  induction ws as [|w ws IH]; [by intros ?%elem_of_nil|].
  destruct ws as [|w' ws].
  - intros Hc. right. exists w. split; [by left|done].
  - change (join sep (w :: w' :: ws)) with (w ++ sep ++ join sep (w' :: ws)).
    rewrite !elem_of_app. intros [Hc|[Hc|Hc]].
    + right. exists w. split; [by left|done].
    + by left.
    + destruct (IH Hc) as [Hsep|(w0 & Hw0 & Hc0)]; [by left|].
      right. exists w0. split; [by right|done].
Qed.

(** Collapsing the whitespace adds no character but the space. *)
Lemma elem_of_join_split_ws c s :
  c ∈ join (lit " ") (split_ws s) → c = space ∨ c ∈ s.
Proof.
  intros [Hsp|(w & Hw & Hc)]%elem_of_join.
  - left. by apply list_elem_of_singleton in Hsp.
  - destruct (elem_of_split_ws_from c w [] s Hw Hc) as [Hnil|Hs]; [|by right].
    by apply elem_of_nil in Hnil.
Qed.

Lemma elem_of_replace c old new s :
  c ∈ replace old new s → c ∈ new ∨ (c ∈ s ∧ c ≠ old).
Proof.
  unfold replace. intros (c' & Hin & Hc')%list_elem_of_bind.
  destruct (decide (c' = old)); [by left|].
  apply list_elem_of_singleton in Hin as ->. by right.
Qed.

End Words.

(** ** The field resolver *)

Section FieldResolver.

Variable lower : pystr → pystr.

(** The dict comprehension keeps, under each normalized form, the last
    header of the row with that form. *)
Lemma norm_map_lookup (row : Row) (k : pystr) :
  norm_map lower row !! k
  = last (filter (λ h, normkey lower h = k) (headers row)).
Proof.
  unfold norm_map, headers. generalize (omap id (keys row)). intros hs.
  induction hs as [|h hs IH] using rev_ind; [done|].
  rewrite foldl_snoc, filter_app, filter_cons, filter_nil.
  destruct (decide (normkey lower h = k)) as [->|Hk].
  - by rewrite lookup_insert_eq, last_snoc.
  - by rewrite lookup_insert_ne, (right_id_L [] (++)).
Qed.

(** The normalized form of a header: no whitespace around it, whitespace
    only as single spaces between words, no byte-order mark and no
    underscore. *)
Lemma normkey_normal_form (k : pystr) :
  strip (normkey lower k) = normkey lower k
  ∧ join (lit " ") (split_ws (normkey lower k)) = normkey lower k
  ∧ (bom ∉ normkey lower k)
  ∧ (underscore ∉ normkey lower k).
Proof.
  unfold normkey. split; [|split; [|split]].
  - apply strip_join, split_ws_words.
  - by rewrite split_ws_join by apply split_ws_words.
  - intros [Hsp|Hin]%elem_of_join_split_ws; [done|].
    apply elem_of_replace in Hin as [Hin|[Hin _]].
    { by apply list_elem_of_singleton in Hin. }
    apply elem_of_replace in Hin as [Hin|[_ Hne]]; [|done].
    by apply elem_of_nil in Hin.
  - intros [Hsp|Hin]%elem_of_join_split_ws; [done|].
    apply elem_of_replace in Hin as [Hin|[_ Hne]]; [|done].
    by apply list_elem_of_singleton in Hin.
Qed.

(** C6. For every row and every ordered list of candidate names, [pick]
    returns the value of the first candidate whose normalized form equals
    the normalized form of some header of the row, and absence when no
    candidate matches a header.  The normalized form is the trimmed,
    lower-cased text without byte-order marks, its underscores turned into
    spaces, then its words joined by single spaces. *)
Theorem pick_first_match (row : Row) (wanted : list pystr) :
  pick lower row wanted = pick_spec lower row wanted
  ∧ ∀ k : pystr,
      normkey lower k
      = join (lit " ")
          (split_ws (replace underscore (lit " ")
                       (replace bom [] (lower (strip k)))))
      ∧ strip (normkey lower k) = normkey lower k
      ∧ join (lit " ") (split_ws (normkey lower k)) = normkey lower k
      ∧ (bom ∉ normkey lower k)
      ∧ (underscore ∉ normkey lower k).
Proof.
  split; [|intros k; split; [done|apply normkey_normal_form]].
  unfold pick_spec. induction wanted as [|want rest IH]; [done|].
  cbn [pick list_find]. rewrite norm_map_lookup.
  fold (matching_headers lower row want).
  destruct (decide (matching_headers lower row want ≠ [])) as [Hne|He].
  - destruct (last (matching_headers lower row want)) as [actual|] eqn:Hl;
      [done|].
    by apply last_None in Hl.
  - apply dec_stable in He. rewrite He at 1. simpl. rewrite IH.
    by destruct (list_find _ rest) as [[i w]|].
Qed.

End FieldResolver.

(** ** Display letters *)

Lemma letters_from_S i n c :
  ascii_uppercase !! i = Some c →
  letters_from i (S n) = [c] :: letters_from (S i) n.
Proof. intros Hc. unfold letters_from. by rewrite (drop_S _ _ _ Hc). Qed.

Lemma ascii_uppercase_lookup i :
  (i < 26)%nat → ∃ c, ascii_uppercase !! i = Some c.
Proof. intros Hi. by apply lookup_lt_is_Some_2. Qed.

Lemma letters_from_length i n :
  (i + n ≤ 26)%nat → length (letters_from i n) = n.
Proof.
  intros Hin. unfold letters_from.
  rewrite length_fmap, length_take, length_drop.
  change (length ascii_uppercase) with 26%nat. lia.
Qed.

Lemma letters_from_NoDup i n : NoDup (letters_from i n).
Proof.
  unfold letters_from. apply (NoDup_fmap_2 _).
  eapply sublist_NoDup; [|apply sublist_take].
  eapply sublist_NoDup; [|apply sublist_drop].
  by apply (bool_decide_unpack _).
Qed.

(** The first four display letters are A, B, C and D. *)
Lemma display_letters_ABCD n :
  (n ≤ 4)%nat →
  display_letters n ⊆ [lit "A"; lit "B"; lit "C"; lit "D"].
Proof.
  intros Hn.
  do 5 (destruct n as [|n]; [by apply (bool_decide_unpack _)|]). lia.
Qed.

(** ** The loops that index the alphabet *)

Lemma option_blocks_returns i options :
  (i + length options ≤ 26)%nat →
  option_blocks i options
  = Returns (zip_with option_block (letters_from i (length options)) options).
Proof.
  revert i. induction options as [|opt rest IH]; intros i Hi; [done|].
  simpl in Hi. destruct (ascii_uppercase_lookup i) as [c Hc]; [lia|].
  cbn [option_blocks length]. unfold getitem. rewrite Hc. cbn [mbind exc_bind].
  rewrite IH by lia. by rewrite (letters_from_S _ _ _ Hc).
Qed.

Lemma flag_correct_returns i indexed cks :
  (i + length indexed ≤ 26)%nat →
  flag_correct i indexed cks
  = let fl := filter (λ lt, matchkey lt.2 ∈ cks)
                (zip (letters_from i (length indexed)) indexed.*2) in
    Returns (fl.*1, fl.*2).
Proof.
  revert i. induction indexed as [|[n t] rest IH]; intros i Hi; [done|].
  simpl in Hi. destruct (ascii_uppercase_lookup i) as [c Hc]; [lia|].
  cbn [flag_correct length]. rewrite (letters_from_S _ _ _ Hc).
  cbn [fmap list_fmap zip zip_with snd]. rewrite filter_cons. cbn [snd].
  rewrite IH by lia. unfold getitem. rewrite Hc.
  by destruct (decide (matchkey t ∈ cks)).
Qed.

Lemma build_front_html_returns q options :
  (length options ≤ 26)%nat →
  build_front_html q options = Returns (front_layout q options).
Proof.
  intros Hlen. unfold build_front_html, front_layout.
  destruct options as [|opt rest]; [done|].
  rewrite option_blocks_returns by done. done.
Qed.

(** ** Flagged options *)

Section Flagged.

Context {A B : Type} (Q : A * B → Prop) `{!∀ x, Decision (Q x)}.

Lemma filter_zip_fst_sublist (ls : list A) (ts : list B) :
  (filter Q (zip ls ts)).*1 `sublist_of` ls.
Proof.
  revert ts. induction ls as [|l ls IH]; intros [|t ts]; simpl;
    try apply sublist_nil_l.
  rewrite filter_cons. destruct (decide (Q (l, t))); simpl.
  - by apply sublist_skip.
  - by apply sublist_cons.
Qed.

End Flagged.

Lemma filter_zip_snd {A} (P : pystr → Prop) `{!∀ x, Decision (P x)}
    `{!∀ lt : A * pystr, Decision (P lt.2)}
    (ls : list A) (ts : list pystr) :
  (length ts ≤ length ls)%nat →
  (filter (λ lt, P lt.2) (zip ls ts)).*2 = filter P ts.
Proof.
  revert ls. induction ts as [|t ts IH]; intros [|l ls] Hlen; simpl in *;
    try done; try lia.
  rewrite !filter_cons. simpl.
  repeat case_decide; simpl in *; try done; rewrite IH by lia; done.
Qed.

Lemma flagged_texts cks displayed :
  (length displayed ≤ 26)%nat →
  (flagged cks displayed).*2 = filter (λ t, matchkey t ∈ cks) displayed.
Proof.
  intros Hlen. unfold flagged, display_letters.
  apply (filter_zip_snd (λ t, matchkey t ∈ cks)).
  by rewrite letters_from_length.
Qed.

Lemma flagged_letters_sublist cks displayed :
  (flagged cks displayed).*1 `sublist_of` display_letters (length displayed).
Proof. apply filter_zip_fst_sublist. Qed.

Lemma flagged_letters_NoDup cks displayed :
  NoDup (flagged cks displayed).*1.
Proof.
  eapply sublist_NoDup; [apply letters_from_NoDup|].
  apply flagged_letters_sublist.
Qed.

(** ** The fields of a row *)

Lemma nonempty_options_length cf : (length (nonempty_options cf) ≤ 4)%nat.
Proof. unfold nonempty_options. apply length_filter. Qed.

Lemma enumerate_snd options : (enumerate options).*2 = options.
Proof.
  unfold enumerate. rewrite fmap_imap.
  rewrite (imap_ext _ (const id)) by done.
  by rewrite imap_const, list_fmap_id.
Qed.

Lemma split_on_from_nonempty cur sep s : split_on_from cur sep s ≠ [].
Proof.
  revert cur. induction s as [|c s IH]; intros cur; simpl; [done|].
  destruct (decide (c = sep)); [done|apply IH].
Qed.

(** A correct-answer field whose pieces are all non-empty after trimming
    has at least one part. *)
Lemma correct_parts_nonempty correct_raw :
  Forall (λ p, strip p ≠ []) (split_on pipe correct_raw) →
  correct_parts correct_raw ≠ [].
Proof.
  unfold correct_parts, split_on.
  pose proof (split_on_from_nonempty [] pipe correct_raw) as Hne.
  destruct (split_on_from [] pipe correct_raw) as [|p ps]; [done|].
  intros [Hp _]%Forall_cons_1. rewrite filter_cons.
  by destruct (decide (strip p ≠ [])).
Qed.

(** ** The shuffle *)

Lemma swap_Permutation {A} (x : list A) i j : swap x i j ≡ₚ x.
Proof.
  unfold swap.
  destruct (x !! i) as [a|] eqn:Hi; [|done].
  destruct (x !! j) as [b|] eqn:Hj; [|done].
  by apply Permutation_insert_swap.
Qed.

Lemma random_shuffle_from_Permutation {A} randbelow i (x : list A) :
  random_shuffle_from randbelow i x ≡ₚ x.
Proof.
  revert x. induction i as [|i IH]; intros x; [done|].
  cbn [random_shuffle_from]. by rewrite IH, swap_Permutation.
Qed.

(** Whatever the random source draws, the shuffle of the standard library
    leaves a permutation of the list. *)
Lemma random_shuffle_Permutation {A} randbelow (x : list A) :
  random_shuffle randbelow x ≡ₚ x.
Proof. apply random_shuffle_from_Permutation. Qed.

(** Settles a decidable closed statement by evaluation. *)
Ltac by_evaluation := apply (bool_decide_unpack _); vm_compute; exact I.

(** ** Classification *)

Section Classifier.

Variable shuffle : list (nat * pystr) → list (nat * pystr).
Hypothesis shuffle_perm : ∀ indexed, shuffle indexed ≡ₚ indexed.

Implicit Types (cf : CanonicalFields) (options parts : list pystr).

Lemma displayed_Permutation options :
  (shuffle (enumerate options)).*2 ≡ₚ options.
Proof. by rewrite shuffle_perm, enumerate_snd. Qed.

Lemma displayed_length options :
  length (shuffle (enumerate options)).*2 = length options.
Proof. by rewrite displayed_Permutation. Qed.

(** Every part is found among the option keys: the pre-shuffle check
    passes. *)
Lemma parts_found_check options parts :
  Forall (λ p, matchkey p ∈ matchkey <$> options) parts →
  ¬ Exists (λ k, option_key_to_text options !! k = None) (matchkey <$> parts).
Proof.
  intros Hfound (k & Hk & Hnone)%Exists_exists.
  apply list_elem_of_fmap in Hk as (p & -> & Hp).
  apply option_key_to_text_None in Hnone.
  by apply Hnone, (proj1 (Forall_forall _ _) Hfound).
Qed.

(** When every part is found and there is a part, some displayed option
    is flagged, wherever the shuffle has put it. *)
Lemma flagged_nonempty options parts :
  (length options ≤ 26)%nat →
  parts ≠ [] →
  Forall (λ p, matchkey p ∈ matchkey <$> options) parts →
  flagged (list_to_set (matchkey <$> parts))
    (shuffle (enumerate options)).*2 ≠ [].
Proof.
  intros Hlen Hparts Hfound Hnil.
  destruct parts as [|p ps]; [done|].
  apply Forall_cons_1 in Hfound as [Hp _].
  apply list_elem_of_fmap in Hp as (o & Hkey & Ho).
  rewrite <- displayed_Permutation in Ho.
  eapply (filter_nil_not_elem_of _ _ o); [|  |exact Ho].
  - rewrite <- flagged_texts by (by rewrite displayed_length).
    by rewrite Hnil.
  - cbv beta. rewrite <- Hkey. apply elem_of_list_to_set.
    rewrite fmap_cons. by left.
Qed.

(** The accepting run of the multiple-choice path. *)
Lemma process_fields_accept cf :
  question cf ≠ [] →
  (2 ≤ length (nonempty_options cf))%nat →
  correct_parts (correctRaw cf) ≠ [] →
  Forall (λ p, matchkey p ∈ matchkey <$> nonempty_options cf)
    (correct_parts (correctRaw cf)) →
  let indexed := shuffle (enumerate (nonempty_options cf)) in
  let cks : gset pystr :=
    list_to_set (matchkey <$> correct_parts (correctRaw cf)) in
  let fl := flagged cks indexed.*2 in
  flag_correct 0 indexed cks = Returns (fl.*1, fl.*2)
  ∧ fl ≠ []
  ∧ process_fields shuffle cf
    = Returns (Some (front_layout (question cf) indexed.*2,
                     build_back_html fl.*1 fl.*2), None).
Proof.
  intros Hq Hlen Hparts Hfound indexed cks fl.
  pose proof (nonempty_options_length cf) as Hle.
  pose proof (displayed_length (nonempty_options cf)) as Hdl.
  assert (flag_correct 0 indexed cks = Returns (fl.*1, fl.*2)) as Hflag.
  { rewrite length_fmap in Hdl. rewrite flag_correct_returns.
    - unfold fl, flagged, display_letters. by rewrite length_fmap.
    - subst indexed. simpl. lia. }
  assert (fl ≠ []) as Hfl by (apply flagged_nonempty; [lia|done..]).
  split; [done|]. split; [done|].
  unfold process_fields.
  destruct (decide (question cf = [])); [done|].
  destruct (decide (length (nonempty_options cf) = 0%nat)); [lia|].
  destruct (decide (length (nonempty_options cf) < 2)%nat); [lia|].
  destruct (decide (correctRaw cf = [])) as [Hraw|_].
  { by rewrite Hraw in Hparts. }
  destruct (decide (correct_parts (correctRaw cf) = [])); [done|].
  destruct (decide (Exists _ _)) as [Hex|_].
  { by apply parts_found_check in Hex. }
  fold indexed. fold cks. rewrite Hflag. cbn [mbind exc_bind].
  destruct (decide (fl.*1 = [])) as [Hnil|_].
  { by apply fmap_nil_inv in Hnil. }
  rewrite build_front_html_returns by (subst indexed; lia). done.
Qed.

(** A part without option: the pre-shuffle check rejects the row. *)
Lemma process_fields_not_found cf :
  question cf ≠ [] →
  (2 ≤ length (nonempty_options cf))%nat →
  Exists (λ p, matchkey p ∉ matchkey <$> nonempty_options cf)
    (correct_parts (correctRaw cf)) →
  process_fields shuffle cf = Returns (None, Some correct_answer_not_found).
Proof.
  intros Hq Hlen Hex. unfold process_fields.
  destruct (decide (question cf = [])); [done|].
  destruct (decide (length (nonempty_options cf) = 0%nat)); [lia|].
  destruct (decide (length (nonempty_options cf) < 2)%nat); [lia|].
  destruct (decide (correctRaw cf = [])) as [Hraw|_].
  { rewrite Hraw in Hex. by apply Exists_nil in Hex. }
  destruct (decide (correct_parts (correctRaw cf) = [])) as [Hnil|_].
  { rewrite Hnil in Hex. by apply Exists_nil in Hex. }
  destruct (decide (Exists _ _)) as [_|Hno]; [done|].
  destruct Hno. apply Exists_fmap.
  eapply Exists_impl; [exact Hex|].
  intros p Hp. by apply option_key_to_text_None.
Qed.

End Classifier.

(** ** Rows through [process_row] *)

Section RowProperties.

Variable lower : pystr → pystr.
Variable shuffle : list (nat * pystr) → list (nat * pystr).
Hypothesis shuffle_perm : ∀ indexed, shuffle indexed ≡ₚ indexed.

Implicit Types (row : Row).

Lemma row_options_length row : (length (row_options lower row) ≤ 4)%nat.
Proof. apply nonempty_options_length. Qed.

Lemma row_displayed_Permutation row :
  row_displayed lower shuffle row ≡ₚ row_options lower row.
Proof. by apply displayed_Permutation. Qed.

Lemma row_displayed_length row :
  (length (row_displayed lower shuffle row) ≤ 4)%nat.
Proof. rewrite row_displayed_Permutation. apply row_options_length. Qed.

(** The flagged texts are the options that carry a correct key. *)
Lemma row_flagged_texts row t :
  t ∈ (flagged (row_key_set lower row) (row_displayed lower shuffle row)).*2
  ↔ t ∈ row_options lower row ∧ matchkey t ∈ matchkey <$> row_parts lower row.
Proof.
  pose proof (row_displayed_length row).
  rewrite flagged_texts by lia.
  rewrite list_elem_of_filter, row_displayed_Permutation.
  unfold row_key_set. rewrite elem_of_list_to_set. tauto.
Qed.

(** The accepting run, on a row. *)
Lemma process_row_accept row :
  question (canonical_fields lower row) ≠ [] →
  (2 ≤ length (row_options lower row))%nat →
  row_parts lower row ≠ [] →
  Forall (λ p, matchkey p ∈ matchkey <$> row_options lower row)
    (row_parts lower row) →
  let fl := flagged (row_key_set lower row)
              (row_displayed lower shuffle row) in
  flag_correct 0 (row_indexed lower shuffle row) (row_key_set lower row)
  = Returns (fl.*1, fl.*2)
  ∧ fl ≠ []
  ∧ process_row lower shuffle row
    = Returns (Some (front_layout (question (canonical_fields lower row))
                       (row_displayed lower shuffle row),
                     build_back_html fl.*1 fl.*2), None).
Proof. intros. by apply process_fields_accept. Qed.

End RowProperties.

(** ** Outcomes of [process_row] *)

Section Outcomes.

Variable shuffle : list (nat * pystr) → list (nat * pystr).
Hypothesis shuffle_perm : ∀ indexed, shuffle indexed ≡ₚ indexed.

Implicit Types (cf : CanonicalFields).

(** A row with options that becomes a card has passed every guard of the
    multiple-choice path. *)
Lemma process_fields_card_inv cf card :
  nonempty_options cf ≠ [] →
  process_fields shuffle cf = Returns (Some card, None) →
  question cf ≠ []
  ∧ (2 ≤ length (nonempty_options cf))%nat
  ∧ correct_parts (correctRaw cf) ≠ []
  ∧ Forall (λ p, matchkey p ∈ matchkey <$> nonempty_options cf)
      (correct_parts (correctRaw cf)).
Proof.
  intros Hopts. unfold process_fields.
  destruct (decide (question cf = [])); [done|].
  destruct (decide (length (nonempty_options cf) = 0%nat)) as [Hz|_].
  { by apply nil_length_inv in Hz. }
  destruct (decide (length (nonempty_options cf) < 2)%nat); [done|].
  destruct (decide (correctRaw cf = [])); [done|].
  destruct (decide (correct_parts (correctRaw cf) = [])); [done|].
  destruct (decide (Exists _ _)) as [|Hno]; [done|].
  intros _. split; [done|]. split; [lia|]. split; [done|].
  apply Forall_forall. intros p Hp.
  apply option_key_to_text_is_Some, not_eq_None_Some. intros Hnone.
  apply Hno, Exists_exists. exists (matchkey p).
  split; [by apply list_elem_of_fmap_2|done].
Qed.

(** No indexing of the alphabet is out of range: [process_row] returns. *)
Lemma process_fields_returns cf :
  ∃ res, process_fields shuffle cf = Returns res.
Proof.
  pose proof (nonempty_options_length cf) as Hle.
  pose proof (displayed_length shuffle shuffle_perm (nonempty_options cf))
    as Hdl.
  unfold process_fields.
  destruct (decide (question cf = [])); [by eexists|].
  destruct (decide (length (nonempty_options cf) = 0%nat)).
  { destruct (decide (correctRaw cf = [])); by eexists. }
  destruct (decide (length (nonempty_options cf) < 2)%nat); [by eexists|].
  destruct (decide (correctRaw cf = [])); [by eexists|].
  destruct (decide (correct_parts (correctRaw cf) = [])); [by eexists|].
  destruct (decide (Exists _ _)); [by eexists|].
  rewrite flag_correct_returns by (rewrite length_fmap in Hdl; lia).
  cbn [mbind exc_bind].
  destruct (decide (_ = [])); [by eexists|].
  rewrite build_front_html_returns by lia. by eexists.
Qed.

(** The only rejection with [correct_answer_not_found] is the one before
    the shuffle. *)
Lemma process_fields_not_found_inv cf :
  process_fields shuffle cf = Returns (None, Some correct_answer_not_found) →
  Exists (λ p, matchkey p ∉ matchkey <$> nonempty_options cf)
    (correct_parts (correctRaw cf)).
Proof.
  intros Hres.
  destruct (decide (Exists (λ p, matchkey p ∉ matchkey <$> nonempty_options cf)
                      (correct_parts (correctRaw cf)))) as [|Hno]; [done|].
  exfalso.
  assert (Forall (λ p, matchkey p ∈ matchkey <$> nonempty_options cf)
            (correct_parts (correctRaw cf))) as Hfound.
  { apply Forall_forall. intros p Hp. apply dec_stable. intros Hnot.
    apply Hno, Exists_exists. by exists p. }
  unfold process_fields in Hres.
  destruct (decide (question cf = [])); [done|].
  destruct (decide (length (nonempty_options cf) = 0%nat)).
  { destruct (decide (correctRaw cf = [])); [done|].
    by rewrite build_front_html_returns in Hres by (simpl; lia). }
  destruct (decide (length (nonempty_options cf) < 2)%nat); [done|].
  destruct (decide (correctRaw cf = [])); [done|].
  destruct (decide (correct_parts (correctRaw cf) = [])); [done|].
  destruct (decide (Exists _ _)) as [Hex|_].
  { by apply parts_found_check in Hex. }
  destruct (process_fields_accept shuffle shuffle_perm cf)
    as (Hflag & Hfl & _); [done|lia|done..|].
  rewrite Hflag in Hres. cbn [mbind exc_bind] in Hres.
  destruct (decide (_ = [])) as [Hnil|_].
  { by apply fmap_nil_inv in Hnil. }
  pose proof (nonempty_options_length cf).
  pose proof (displayed_length shuffle shuffle_perm (nonempty_options cf)).
  by rewrite build_front_html_returns in Hres by lia.
Qed.

End Outcomes.


(** ** Correct answers of a multiple-choice row *)

(** C1. For a row with a non-empty question, at least two non-empty options,
    a non-empty correct-answer field whose pipe-split pieces are all
    non-empty after trimming, and every part key among the option keys,
    [process_row] produces a card, and the correct texts on it are, as a
    set, exactly the non-empty options whose matching key is a part key;
    any other shuffle yields the same set. *)
Theorem correct_texts_shuffle_independent
    (lower : pystr → pystr) (shuffle : list (nat * pystr) → list (nat * pystr))
    (row : Row) :
  (∀ indexed, shuffle indexed ≡ₚ indexed) →
  question (canonical_fields lower row) ≠ [] →
  (2 ≤ length (row_options lower row))%nat →
  correctRaw (canonical_fields lower row) ≠ [] →
  Forall (λ p, strip p ≠ [])
    (split_on pipe (correctRaw (canonical_fields lower row))) →
  Forall (λ p, matchkey p ∈ matchkey <$> row_options lower row)
    (row_parts lower row) →
  ∃ front letters texts,
    flag_correct 0 (row_indexed lower shuffle row) (row_key_set lower row)
    = Returns (letters, texts)
    ∧ process_row lower shuffle row
      = Returns (Some (front, build_back_html letters texts), None)
    ∧ (∀ t, t ∈ texts ↔
         t ∈ row_options lower row
         ∧ matchkey t ∈ matchkey <$> row_parts lower row)
    ∧ (∀ shuffle' : list (nat * pystr) → list (nat * pystr),
         (∀ indexed, shuffle' indexed ≡ₚ indexed) →
         ∃ front' letters' texts',
           flag_correct 0 (row_indexed lower shuffle' row)
             (row_key_set lower row)
           = Returns (letters', texts')
           ∧ process_row lower shuffle' row
             = Returns (Some (front', build_back_html letters' texts'), None)
           ∧ (∀ t, t ∈ texts' ↔ t ∈ texts)).
Proof.
  intros Hperm Hq Hlen _ Hpieces Hfound.
  pose proof (correct_parts_nonempty _ Hpieces) as Hparts.
  destruct (process_row_accept lower shuffle Hperm row Hq Hlen Hparts Hfound)
    as (Hflag & _ & Hrow).
  eexists _, _, _. split; [exact Hflag|]. split; [exact Hrow|].
  split; [intros t; by apply row_flagged_texts|].
  intros shuffle' Hperm'.
  destruct (process_row_accept lower shuffle' Hperm' row Hq Hlen Hparts Hfound)
    as (Hflag' & _ & Hrow').
  eexists _, _, _. split; [exact Hflag'|]. split; [exact Hrow'|].
  intros t. by rewrite !row_flagged_texts.
Qed.

(** The row "2+2?" with the options 3, 4, 5, 6 and the correct answer 4. *)
Lemma correct_texts_shuffle_independent_witness :
  ∃ front letters texts,
    flag_correct 0
      (row_indexed lower_ascii (random_shuffle randbelow_example) row_sum)
      (row_key_set lower_ascii row_sum)
    = Returns (letters, texts)
    ∧ process_row lower_ascii (random_shuffle randbelow_example) row_sum
      = Returns (Some (front, build_back_html letters texts), None)
    ∧ (∀ t, t ∈ texts ↔
         t ∈ row_options lower_ascii row_sum
         ∧ matchkey t ∈ matchkey <$> row_parts lower_ascii row_sum)
    ∧ (∀ shuffle' : list (nat * pystr) → list (nat * pystr),
         (∀ indexed, shuffle' indexed ≡ₚ indexed) →
         ∃ front' letters' texts',
           flag_correct 0 (row_indexed lower_ascii shuffle' row_sum)
             (row_key_set lower_ascii row_sum)
           = Returns (letters', texts')
           ∧ process_row lower_ascii shuffle' row_sum
             = Returns (Some (front', build_back_html letters' texts'), None)
           ∧ (∀ t, t ∈ texts' ↔ t ∈ texts)).
Proof.
  apply (correct_texts_shuffle_independent lower_ascii
           (random_shuffle randbelow_example) row_sum).
  - apply random_shuffle_Permutation.
  - by_evaluation.
  - by_evaluation.
  - by_evaluation.
  - by_evaluation.
  - by_evaluation.
Defined.

(** C3. For a row with a non-empty question, at least two non-empty options
    and at least one correct-answer part, if some part has a matching key
    that is no option's matching key, [process_row] rejects the row with
    [correct_answer_not_found], however many other parts match. *)
Theorem unmapped_part_rejected
    (lower : pystr → pystr) (shuffle : list (nat * pystr) → list (nat * pystr))
    (row : Row) :
  question (canonical_fields lower row) ≠ [] →
  (2 ≤ length (row_options lower row))%nat →
  row_parts lower row ≠ [] →
  Exists (λ p, matchkey p ∉ matchkey <$> row_options lower row)
    (row_parts lower row) →
  process_row lower shuffle row
  = Returns (None, Some correct_answer_not_found).
Proof. intros Hq Hlen _ Hex. by apply process_fields_not_found. Qed.

(** The options A, B, C with the correct answer "A|Z": A matches, Z does
    not. *)
Lemma unmapped_part_rejected_witness :
  process_row lower_ascii (random_shuffle randbelow_example) row_unmapped
  = Returns (None, Some correct_answer_not_found).
Proof.
  apply (unmapped_part_rejected lower_ascii
           (random_shuffle randbelow_example) row_unmapped).
  - by_evaluation.
  - by_evaluation.
  - by_evaluation.
  - by_evaluation.
Defined.

(** C4. For a multiple-choice row that passes the pre-shuffle check (every
    part key is an option key, and there is a part) and for every shuffle
    permutation, some displayed option carries a correct key: the loop
    after the shuffle collects at least one letter, so the re-check after
    it does not reject the row, which becomes a card.  Hence whatever row
    is rejected with [correct_answer_not_found] is rejected by the check
    before the shuffle: one of its parts has no option. *)
Theorem post_shuffle_check_unreachable
    (lower : pystr → pystr) (shuffle : list (nat * pystr) → list (nat * pystr))
    (row : Row) :
  (∀ indexed, shuffle indexed ≡ₚ indexed) →
  question (canonical_fields lower row) ≠ [] →
  (2 ≤ length (row_options lower row))%nat →
  row_parts lower row ≠ [] →
  Forall (λ p, matchkey p ∈ matchkey <$> row_options lower row)
    (row_parts lower row) →
  Exists (λ opt, matchkey opt ∈ row_key_set lower row)
    (row_displayed lower shuffle row)
  ∧ ∃ letters texts card,
      flag_correct 0 (row_indexed lower shuffle row) (row_key_set lower row)
      = Returns (letters, texts)
      ∧ letters ≠ []
      ∧ process_row lower shuffle row = Returns (Some card, None)
      ∧ ∀ row' : Row,
          process_row lower shuffle row'
          = Returns (None, Some correct_answer_not_found) →
          Exists (λ p, matchkey p ∉ matchkey <$> row_options lower row')
            (row_parts lower row').
Proof.
  intros Hperm Hq Hlen Hparts Hfound.
  destruct (process_row_accept lower shuffle Hperm row Hq Hlen Hparts Hfound)
    as (Hflag & Hfl & Hrow).
  split.
  - destruct (flagged _ _) as [|[l t] fl] eqn:Hfl'; [done|].
    assert (t ∈ (flagged (row_key_set lower row)
                   (row_displayed lower shuffle row)).*2) as Ht.
    { rewrite Hfl'. by left. }
    pose proof (row_displayed_length lower shuffle Hperm row).
    rewrite flagged_texts in Ht by lia.
    apply list_elem_of_filter in Ht as [Hkey Ht].
    apply Exists_exists. by exists t.
  - eexists _, _, _. split; [exact Hflag|].
    split; [|split; [exact Hrow|]].
    + intros Hnil. by apply fmap_nil_inv in Hnil.
    + intros row'. by apply process_fields_not_found_inv.
Qed.

Lemma post_shuffle_check_unreachable_witness :
  Exists (λ opt, matchkey opt ∈ row_key_set lower_ascii row_sum)
    (row_displayed lower_ascii (random_shuffle randbelow_example) row_sum)
  ∧ ∃ letters texts card,
      flag_correct 0
        (row_indexed lower_ascii (random_shuffle randbelow_example) row_sum)
        (row_key_set lower_ascii row_sum)
      = Returns (letters, texts)
      ∧ letters ≠ []
      ∧ process_row lower_ascii (random_shuffle randbelow_example) row_sum
        = Returns (Some card, None)
      ∧ ∀ row' : Row,
          process_row lower_ascii (random_shuffle randbelow_example) row'
          = Returns (None, Some correct_answer_not_found) →
          Exists (λ p, matchkey p ∉ matchkey <$> row_options lower_ascii row')
            (row_parts lower_ascii row').
Proof.
  apply (post_shuffle_check_unreachable lower_ascii
           (random_shuffle randbelow_example) row_sum).
  - apply random_shuffle_Permutation.
  - by_evaluation.
  - by_evaluation.
  - by_evaluation.
  - by_evaluation.
Defined.

(** ** Rows without options *)

Lemma nonempty_options_none cf :
  optionA cf = [] → optionB cf = [] → optionC cf = [] → optionD cf = [] →
  nonempty_options cf = [].
Proof. unfold nonempty_options. by intros -> -> -> ->. Qed.

(** C2, as stated, fails: the row with an answer but neither question nor
    options has four empty option fields, and [process_row] returns
    neither a card nor [missing_correct_answer] on it but
    [missing_question]. *)
Lemma no_option_outcomes_as_stated_fails :
  let cf := canonical_fields lower_ascii row_no_question in
  let result :=
    process_row lower_ascii (random_shuffle randbelow_example)
      row_no_question in
  optionA cf = [] ∧ optionB cf = [] ∧ optionC cf = [] ∧ optionD cf = []
  ∧ result = Returns (None, Some missing_question)
  ∧ ¬ ((∃ card, result = Returns (Some card, None))
       ∨ result = Returns (None, Some missing_correct_answer)).
Proof.
  assert (process_row lower_ascii (random_shuffle randbelow_example)
            row_no_question
          = Returns (None, Some missing_question)) as Hresult.
  { vm_compute. reflexivity. }
  cbv zeta. rewrite Hresult.
  do 4 (split; [vm_compute; reflexivity|]). split; [done|].
  by intros [[card Hcard]|Hreason].
Qed.

(** C2, amended. For a row whose four option fields are empty after
    trimming, [process_row] returns [missing_question] when the question
    is empty, and otherwise [missing_correct_answer] when the
    correct-answer field is empty and a free-text card when it is not; it
    returns neither [not_enough_options] nor [correct_answer_not_found]. *)
Theorem no_option_outcomes
    (lower : pystr → pystr) (shuffle : list (nat * pystr) → list (nat * pystr))
    (row : Row) :
  optionA (canonical_fields lower row) = [] →
  optionB (canonical_fields lower row) = [] →
  optionC (canonical_fields lower row) = [] →
  optionD (canonical_fields lower row) = [] →
  ((question (canonical_fields lower row) = []
    ∧ process_row lower shuffle row = Returns (None, Some missing_question))
   ∨ (question (canonical_fields lower row) ≠ []
      ∧ correctRaw (canonical_fields lower row) = []
      ∧ process_row lower shuffle row
        = Returns (None, Some missing_correct_answer))
   ∨ (question (canonical_fields lower row) ≠ []
      ∧ correctRaw (canonical_fields lower row) ≠ []
      ∧ build_front_html (question (canonical_fields lower row)) []
        = Returns (front_layout (question (canonical_fields lower row)) [])
      ∧ process_row lower shuffle row
        = Returns
            (Some (front_layout (question (canonical_fields lower row)) [],
                   freetext_back (correctRaw (canonical_fields lower row))),
             None)))
  ∧ process_row lower shuffle row ≠ Returns (None, Some not_enough_options)
  ∧ process_row lower shuffle row
    ≠ Returns (None, Some correct_answer_not_found).
Proof.
  intros Ha Hb Hc Hd.
  pose proof (nonempty_options_none _ Ha Hb Hc Hd) as Hnone.
  unfold process_row, process_fields. rewrite Hnone. cbn [length].
  destruct (decide (0%nat = 0%nat)) as [_|?]; [|done].
  destruct (decide (question (canonical_fields lower row) = [])).
  { split; [by left|by split]. }
  destruct (decide (correctRaw (canonical_fields lower row) = [])).
  { split; [by right; left|by split]. }
  split; [right; right|by split].
  by rewrite build_front_html_returns by (simpl; lia).
Qed.

(** A question without options, answered in free text. *)
Lemma no_option_outcomes_witness :
  ((question (canonical_fields lower_ascii row_freetext) = []
    ∧ process_row lower_ascii (random_shuffle randbelow_example) row_freetext
      = Returns (None, Some missing_question))
   ∨ (question (canonical_fields lower_ascii row_freetext) ≠ []
      ∧ correctRaw (canonical_fields lower_ascii row_freetext) = []
      ∧ process_row lower_ascii (random_shuffle randbelow_example)
          row_freetext
        = Returns (None, Some missing_correct_answer))
   ∨ (question (canonical_fields lower_ascii row_freetext) ≠ []
      ∧ correctRaw (canonical_fields lower_ascii row_freetext) ≠ []
      ∧ build_front_html
          (question (canonical_fields lower_ascii row_freetext)) []
        = Returns
            (front_layout
               (question (canonical_fields lower_ascii row_freetext)) [])
      ∧ process_row lower_ascii (random_shuffle randbelow_example)
          row_freetext
        = Returns
            (Some
               (front_layout
                  (question (canonical_fields lower_ascii row_freetext)) [],
                freetext_back
                  (correctRaw (canonical_fields lower_ascii row_freetext))),
             None)))
  ∧ process_row lower_ascii (random_shuffle randbelow_example) row_freetext
    ≠ Returns (None, Some not_enough_options)
  ∧ process_row lower_ascii (random_shuffle randbelow_example) row_freetext
    ≠ Returns (None, Some correct_answer_not_found).
Proof.
  apply (no_option_outcomes lower_ascii (random_shuffle randbelow_example)
           row_freetext).
  - by_evaluation.
  - by_evaluation.
  - by_evaluation.
  - by_evaluation.
Defined.

(** ** Display letters of a row *)

(** C8. The four option fields give a row at most four non-empty options,
    so for every shuffle permutation the indexing of the alphabet is in
    bounds and yields one of A, B, C, D: on the front, in the loop that
    flags the correct options, and hence [process_row] returns without
    raising. *)
Theorem display_letters_in_bounds
    (lower : pystr → pystr) (shuffle : list (nat * pystr) → list (nat * pystr))
    (row : Row) :
  (∀ indexed, shuffle indexed ≡ₚ indexed) →
  (length (row_options lower row) ≤ 4)%nat
  ∧ (length (row_displayed lower shuffle row) ≤ 4)%nat
  ∧ (∀ i opt, row_displayed lower shuffle row !! i = Some opt →
       ∃ letter, getitem ascii_uppercase i = Returns letter
                 ∧ letter ∈ [lit "A"; lit "B"; lit "C"; lit "D"])
  ∧ option_blocks 0 (row_displayed lower shuffle row)
    = Returns (zip_with option_block
                 (display_letters (length (row_displayed lower shuffle row)))
                 (row_displayed lower shuffle row))
  ∧ display_letters (length (row_displayed lower shuffle row))
    ⊆ [lit "A"; lit "B"; lit "C"; lit "D"]
  ∧ (∀ correct_key_set, ∃ letters texts,
       flag_correct 0 (row_indexed lower shuffle row) correct_key_set
       = Returns (letters, texts)
       ∧ letters ⊆ [lit "A"; lit "B"; lit "C"; lit "D"])
  ∧ (∃ res, process_row lower shuffle row = Returns res).
Proof.
  intros Hperm.
  pose proof (row_options_length lower row) as Hopts.
  pose proof (row_displayed_length lower shuffle Hperm row) as Hdisp.
  split; [done|]. split; [done|]. split; [|split; [|split; [|split]]].
  - intros i opt Hi. apply lookup_lt_Some in Hi.
    destruct i as [|[|[|[|i]]]]; [..|lia];
      (eexists; split; [reflexivity|by_evaluation]).
  - by rewrite option_blocks_returns by (simpl; lia).
  - by apply display_letters_ABCD.
  - intros cks. unfold row_displayed in Hdisp. rewrite length_fmap in Hdisp.
    rewrite flag_correct_returns by (simpl; lia).
    eexists _, _. split; [done|].
    etrans; [apply sublist_subseteq, filter_zip_fst_sublist|].
    by apply display_letters_ABCD.
  - by apply process_fields_returns.
Qed.

Lemma display_letters_in_bounds_witness :
  (length (row_options lower_ascii row_sum) ≤ 4)%nat
  ∧ (length (row_displayed lower_ascii (random_shuffle randbelow_example)
               row_sum) ≤ 4)%nat
  ∧ (∀ i opt,
       row_displayed lower_ascii (random_shuffle randbelow_example) row_sum
         !! i = Some opt →
       ∃ letter, getitem ascii_uppercase i = Returns letter
                 ∧ letter ∈ [lit "A"; lit "B"; lit "C"; lit "D"])
  ∧ option_blocks 0
      (row_displayed lower_ascii (random_shuffle randbelow_example) row_sum)
    = Returns
        (zip_with option_block
           (display_letters
              (length (row_displayed lower_ascii
                         (random_shuffle randbelow_example) row_sum)))
           (row_displayed lower_ascii (random_shuffle randbelow_example)
              row_sum))
  ∧ display_letters
      (length (row_displayed lower_ascii (random_shuffle randbelow_example)
                 row_sum))
    ⊆ [lit "A"; lit "B"; lit "C"; lit "D"]
  ∧ (∀ correct_key_set, ∃ letters texts,
       flag_correct 0
         (row_indexed lower_ascii (random_shuffle randbelow_example) row_sum)
         correct_key_set
       = Returns (letters, texts)
       ∧ letters ⊆ [lit "A"; lit "B"; lit "C"; lit "D"])
  ∧ (∃ res,
       process_row lower_ascii (random_shuffle randbelow_example) row_sum
       = Returns res).
Proof.
  apply (display_letters_in_bounds lower_ascii
           (random_shuffle randbelow_example) row_sum).
  apply random_shuffle_Permutation.
Defined.

(** ** What the faces hold *)

Lemma replace_absent (old : N) (new s : pystr) :
  old ∉ s → replace old new s = s.
Proof.
  unfold replace. induction s as [|c s IH]; [done|].
  intros [Hc Hs]%not_elem_of_cons. cbn [mbind list_bind].
  rewrite decide_False by done. simpl. f_equal. by apply IH.
Qed.

Lemma replace_app (old : N) (new s t : pystr) :
  replace old new (s ++ t) = replace old new s ++ replace old new t.
Proof. unfold replace. apply bind_app. Qed.

Lemma escape_app (s t : pystr) : escape (s ++ t) = escape s ++ escape t.
Proof. unfold escape. by rewrite !replace_app. Qed.

(** Text without a character of markup is escaped into itself. *)
Lemma escape_plain (s : pystr) :
  Forall (λ c, c ∉ [amp; langle; rangle; dquote; squote]) s →
  escape s = s.
Proof.
  intros Hs. unfold escape.
  assert (∀ c, c ∈ [amp; langle; rangle; dquote; squote] → c ∉ s) as Habs.
  { intros c Hc Hin. by apply (proj1 (Forall_forall _ _) Hs c Hin). }
  rewrite (replace_absent amp _ s) by (apply Habs; set_solver).
  rewrite (replace_absent langle _ s) by (apply Habs; set_solver).
  rewrite (replace_absent rangle _ s) by (apply Habs; set_solver).
  rewrite (replace_absent dquote _ s) by (apply Habs; set_solver).
  by rewrite (replace_absent squote _ s) by (apply Habs; set_solver).
Qed.

(** [html.escape] works character by character. *)
Lemma escape_entities (s : pystr) : escape s = s ≫= entity_of.
Proof.
  induction s as [|c s IH]; [done|].
  change (c :: s) with ([c] ++ s). rewrite escape_app, bind_app, IH.
  f_equal. rewrite bind_singleton. unfold entity_of.
  repeat (case_decide; [by subst|]).
  apply escape_plain. constructor; [|done].
  rewrite !not_elem_of_cons. repeat split; try done. apply not_elem_of_nil.
Qed.

(** An entity opens with an ampersand, stands for one character only, and
    a character that is written as itself is no ampersand. *)
Lemma entity_of_inj (c d : N) (s t : pystr) :
  entity_of c ++ s = entity_of d ++ t → c = d ∧ s = t.
Proof.
  unfold entity_of.
  repeat (destruct (decide (c = _)) as [->|?]);
    repeat (destruct (decide (d = _)) as [->|?]);
    intros Heq; try (by apply (inj (app _)) in Heq);
    try (injection Heq; intros; subst; done).
Qed.

(** Distinct texts are escaped into distinct texts. *)
Lemma escape_inj (s t : pystr) : escape s = escape t → s = t.
Proof.
  rewrite !escape_entities. revert t.
  induction s as [|c s IH]; intros [|d t]; [done| | |].
  - rewrite bind_cons. unfold entity_of.
    repeat (case_decide; [done|]). done.
  - rewrite bind_cons. unfold entity_of.
    repeat (case_decide; [done|]). done.
  - rewrite !bind_cons. intros [-> Heq]%entity_of_inj.
    f_equal. by apply IH.
Qed.

Lemma zip_with_display_letters {B} (f : pystr → pystr → B)
    (displayed : list pystr) :
  (length displayed ≤ 4)%nat →
  zip_with f (display_letters (length displayed)) displayed
  = zip_with f [lit "A"; lit "B"; lit "C"; lit "D"] displayed.
Proof.
  intros Hlen.
  destruct displayed as [|a [|b [|c [|d [|e rest]]]]]; try done.
  simpl in Hlen. lia.
Qed.

(** The text of a front with options, written out. *)
Lemma front_layout_text (q : pystr) (displayed : list pystr) :
  displayed ≠ [] → (length displayed ≤ 4)%nat →
  front_layout q displayed
  = lit "<div style='text-align:left;'>"
    ++ lit "<div style='font-weight:700; margin-bottom:8px;'>"
    ++ replace newline (lit "<br>") (escape q) ++ lit "</div>"
    ++ lit "<div>"
    ++ concat
         (zip_with
            (λ letter opt,
               lit "<div style='margin:2px 0;'>"
               ++ lit "<span style='display:inline-block; width:24px;'>"
               ++ letter ++ lit ".</span>"
               ++ lit "<span>" ++ escape opt ++ lit "</span>"
               ++ lit "</div>")
            [lit "A"; lit "B"; lit "C"; lit "D"] displayed)
    ++ lit "</div>"
    ++ lit "</div>".
Proof.
  intros Hne Hlen. unfold front_layout.
  destruct displayed as [|opt rest] eqn:Hd; [done|]. rewrite <- Hd in *.
  rewrite (zip_with_display_letters option_block) by done.
  rewrite !concat_app. cbn [concat].
  by rewrite !(right_id_L [] (++)), <- !(assoc_L (++)).
Qed.

(** The text of a back whose letters are display letters, written out. *)
Lemma build_back_html_text (n : nat) (letters texts : list pystr) :
  (n ≤ 4)%nat → letters ⊆ display_letters n →
  build_back_html letters texts
  = lit "<div style='text-align:left;'>"
    ++ lit "<div style='margin-top:8px;'><b>Richtige Antwort:</b> "
    ++ join (lit ", ") letters ++ lit "</div>"
    ++ concat
         ((λ t, lit "<div style='margin-top:4px;'>"
                ++ replace newline (lit "<br>") (escape t)
                ++ lit "</div>") <$> texts)
    ++ lit "</div>".
Proof.
  intros Hn Hletters. unfold build_back_html.
  assert (Forall (λ c, c ∉ [amp; langle; rangle; dquote; squote]) (lit ", "))
    as Hsep by by_evaluation.
  assert (Forall (Forall (λ c, c ∉ [amp; langle; rangle; dquote; squote]))
            [lit "A"; lit "B"; lit "C"; lit "D"]) as Habcd by by_evaluation.
  rewrite escape_plain; [done|].
  apply Forall_forall. intros c [Hc|(l & Hl & Hc)]%elem_of_join.
  - by apply (proj1 (Forall_forall _ _) Hsep).
  - apply Hletters, (display_letters_ABCD n Hn) in Hl.
    apply (proj1 (Forall_forall _ _) Habcd) in Hl.
    by apply (proj1 (Forall_forall _ _) Hl).
Qed.

Lemma zip_with_fmap_zip {A B C} (f : A → B → C) (l : list A) (k : list B) :
  zip_with f l k = (λ p, f p.1 p.2) <$> zip l k.
Proof.
  revert k. induction l as [|a l IH]; intros [|b k]; [done..|].
  simpl. by rewrite IH.
Qed.

(** ** Displayed options *)

(** C9. For every accepted multiple-choice row and every shuffle
    permutation, the displayed options are a permutation of the non-empty
    option texts of the fields A to D, and the front is laid out from
    them: one block per displayed option, each text as often as it occurs
    in the input.  The front is written out: after the question line it
    holds, for the displayed options in their order, one block each with
    the letter A, B, C or D of its place and the escaped text of the
    option, and nothing else; as many blocks show a text as fields of the
    row hold it, and escaping tells the texts apart. *)
Theorem displayed_options_permutation
    (lower : pystr → pystr) (shuffle : list (nat * pystr) → list (nat * pystr))
    (row : Row) (card : pystr * pystr) :
  (∀ indexed, shuffle indexed ≡ₚ indexed) →
  row_options lower row ≠ [] →
  process_row lower shuffle row = Returns (Some card, None) →
  row_displayed lower shuffle row ≡ₚ row_options lower row
  ∧ build_front_html (question (canonical_fields lower row))
      (row_displayed lower shuffle row)
    = Returns card.1
  ∧ card.1 = front_layout (question (canonical_fields lower row))
               (row_displayed lower shuffle row)
  ∧ (∀ t, length (filter (λ opt, opt = t) (row_displayed lower shuffle row))
          = length (filter (λ opt, opt = t) (row_options lower row)))
  ∧ card.1
    = lit "<div style='text-align:left;'>"
      ++ lit "<div style='font-weight:700; margin-bottom:8px;'>"
      ++ replace newline (lit "<br>")
           (escape (question (canonical_fields lower row)))
      ++ lit "</div>"
      ++ lit "<div>"
      ++ concat
           ((λ shown : pystr * pystr,
               lit "<div style='margin:2px 0;'>"
               ++ lit "<span style='display:inline-block; width:24px;'>"
               ++ shown.1 ++ lit ".</span>"
               ++ lit "<span>" ++ escape shown.2 ++ lit "</span>"
               ++ lit "</div>")
              <$> zip [lit "A"; lit "B"; lit "C"; lit "D"]
                    (row_displayed lower shuffle row))
      ++ lit "</div>"
      ++ lit "</div>"
  ∧ (zip [lit "A"; lit "B"; lit "C"; lit "D"]
       (row_displayed lower shuffle row)).*2
    = row_displayed lower shuffle row
  ∧ (∀ t, length (filter (λ shown : pystr * pystr, shown.2 = t)
                    (zip [lit "A"; lit "B"; lit "C"; lit "D"]
                       (row_displayed lower shuffle row)))
          = length (filter (λ opt, opt = t) (row_options lower row)))
  ∧ (∀ opt t, opt ∈ row_options lower row →
              escape opt = escape t → opt = t).
Proof.
  intros Hperm Hopts Hcard.
  pose proof (row_displayed_Permutation lower shuffle Hperm row) as Hdisp.
  pose proof (row_displayed_length lower shuffle Hperm row) as Hlen.
  destruct (process_fields_card_inv shuffle _ _ Hopts Hcard)
    as (Hq & Hmc & Hparts & Hfound).
  destruct (process_row_accept lower shuffle Hperm row Hq Hmc Hparts Hfound)
    as (_ & _ & Hrow).
  rewrite Hrow in Hcard. injection Hcard as <-.
  assert (row_displayed lower shuffle row ≠ []) as Hdne.
  { intros Hnil. rewrite Hnil in Hdisp.
    by apply Permutation_nil_l in Hdisp. }
  assert ((zip [lit "A"; lit "B"; lit "C"; lit "D"]
             (row_displayed lower shuffle row)).*2
          = row_displayed lower shuffle row) as Hzip.
  { apply snd_zip. simpl. lia. }
  split; [done|]. split; [|split; [done|]].
  - by rewrite build_front_html_returns by lia.
  - split; [intros t; by rewrite Hdisp|].
    split; [|split; [done|split]].
    + cbn [fst]. rewrite front_layout_text by done.
      by rewrite zip_with_fmap_zip.
    + intros t.
      rewrite <- (length_fmap snd), (filter_zip_snd (λ opt, opt = t))
        by (simpl; lia).
      by rewrite Hdisp.
    + intros opt t _. apply escape_inj.
Qed.

(** The row of the sum: its front shows 3, 5, 6 and 4 under A to D. *)
Lemma displayed_options_permutation_witness :
  ∃ card,
    process_row lower_ascii (random_shuffle randbelow_example) row_sum
    = Returns (Some card, None)
    ∧ card.1
      = lit "<div style='text-align:left;'><div style='font-weight:700; margin-bottom:8px;'>2+2?</div><div><div style='margin:2px 0;'><span style='display:inline-block; width:24px;'>A.</span><span>3</span></div><div style='margin:2px 0;'><span style='display:inline-block; width:24px;'>B.</span><span>5</span></div><div style='margin:2px 0;'><span style='display:inline-block; width:24px;'>C.</span><span>6</span></div><div style='margin:2px 0;'><span style='display:inline-block; width:24px;'>D.</span><span>4</span></div></div></div>"
    ∧ row_displayed lower_ascii (random_shuffle randbelow_example) row_sum
      ≡ₚ row_options lower_ascii row_sum
    ∧ build_front_html (question (canonical_fields lower_ascii row_sum))
        (row_displayed lower_ascii (random_shuffle randbelow_example) row_sum)
      = Returns card.1
    ∧ card.1
      = front_layout (question (canonical_fields lower_ascii row_sum))
          (row_displayed lower_ascii (random_shuffle randbelow_example)
             row_sum)
    ∧ (∀ t,
         length (filter (λ opt, opt = t)
                   (row_displayed lower_ascii
                      (random_shuffle randbelow_example) row_sum))
         = length (filter (λ opt, opt = t) (row_options lower_ascii row_sum)))
    ∧ card.1
      = lit "<div style='text-align:left;'>"
        ++ lit "<div style='font-weight:700; margin-bottom:8px;'>"
        ++ replace newline (lit "<br>")
             (escape (question (canonical_fields lower_ascii row_sum)))
        ++ lit "</div>"
        ++ lit "<div>"
        ++ concat
             ((λ shown : pystr * pystr,
                 lit "<div style='margin:2px 0;'>"
                 ++ lit "<span style='display:inline-block; width:24px;'>"
                 ++ shown.1 ++ lit ".</span>"
                 ++ lit "<span>" ++ escape shown.2 ++ lit "</span>"
                 ++ lit "</div>")
                <$> zip [lit "A"; lit "B"; lit "C"; lit "D"]
                      (row_displayed lower_ascii
                         (random_shuffle randbelow_example) row_sum))
        ++ lit "</div>"
        ++ lit "</div>"
    ∧ (zip [lit "A"; lit "B"; lit "C"; lit "D"]
         (row_displayed lower_ascii (random_shuffle randbelow_example)
            row_sum)).*2
      = row_displayed lower_ascii (random_shuffle randbelow_example) row_sum
    ∧ (∀ t, length (filter (λ shown : pystr * pystr, shown.2 = t)
                      (zip [lit "A"; lit "B"; lit "C"; lit "D"]
                         (row_displayed lower_ascii
                            (random_shuffle randbelow_example) row_sum)))
            = length (filter (λ opt, opt = t)
                        (row_options lower_ascii row_sum)))
    ∧ (∀ opt t, opt ∈ row_options lower_ascii row_sum →
                escape opt = escape t → opt = t).
Proof.
  eexists. split; [vm_compute; reflexivity|].
  split; [vm_compute; reflexivity|].
  apply (displayed_options_permutation lower_ascii
           (random_shuffle randbelow_example) row_sum).
  - apply random_shuffle_Permutation.
  - by_evaluation.
  - vm_compute. reflexivity.
Defined.

(** ** Options with one matching key *)

(** C10. When two or more non-empty options have the matching key [k] and
    some correct-answer part has it too, every one of these options is
    flagged on the card: under its own display letter, and with its text
    on the back once per occurrence.  The back is written out: its first
    line lists the letters of the flagged options, joined by a comma and a
    space, and one block follows for each flagged text, in the order of
    the letters; the options with the key [k] have as many letters, all
    distinct, and as many blocks as fields of the row hold them. *)
Theorem duplicate_keys_all_flagged
    (lower : pystr → pystr) (shuffle : list (nat * pystr) → list (nat * pystr))
    (row : Row) (card : pystr * pystr) (k : pystr) :
  (∀ indexed, shuffle indexed ≡ₚ indexed) →
  process_row lower shuffle row = Returns (Some card, None) →
  (2 ≤ length (filter (λ opt, matchkey opt = k) (row_options lower row)))%nat →
  k ∈ matchkey <$> row_parts lower row →
  let displayed := row_displayed lower shuffle row in
  let fl := flagged (row_key_set lower row) displayed in
  flag_correct 0 (row_indexed lower shuffle row) (row_key_set lower row)
  = Returns (fl.*1, fl.*2)
  ∧ card.2 = build_back_html fl.*1 fl.*2
  ∧ NoDup fl.*1
  ∧ length fl.*1 = length fl.*2
  ∧ filter (λ lt, matchkey lt.2 = k) fl
    = filter (λ lt, matchkey lt.2 = k)
        (zip (display_letters (length displayed)) displayed)
  ∧ filter (λ t, matchkey t = k) fl.*2
    ≡ₚ filter (λ opt, matchkey opt = k) (row_options lower row)
  ∧ (2 ≤ length (filter (λ t, matchkey t = k) fl.*2))%nat
  ∧ card.2
    = lit "<div style='text-align:left;'>"
      ++ lit "<div style='margin-top:8px;'><b>Richtige Antwort:</b> "
      ++ join (lit ", ") fl.*1 ++ lit "</div>"
      ++ concat
           ((λ t, lit "<div style='margin-top:4px;'>"
                  ++ replace newline (lit "<br>") (escape t)
                  ++ lit "</div>") <$> fl.*2)
      ++ lit "</div>"
  ∧ fl = filter (λ lt, matchkey lt.2 ∈ matchkey <$> row_parts lower row)
           (zip [lit "A"; lit "B"; lit "C"; lit "D"] displayed)
  ∧ length (filter (λ lt, matchkey lt.2 = k) fl)
    = length (filter (λ opt, matchkey opt = k) (row_options lower row))
  ∧ NoDup (filter (λ lt, matchkey lt.2 = k) fl).*1
  ∧ (filter (λ lt, matchkey lt.2 = k) fl).*1
    ⊆ [lit "A"; lit "B"; lit "C"; lit "D"].
Proof.
  intros Hperm Hcard Hdup Hk displayed fl.
  pose proof (row_displayed_Permutation lower shuffle Hperm row) as Hdisp.
  pose proof (row_displayed_length lower shuffle Hperm row) as Hlen.
  assert (row_options lower row ≠ []) as Hopts.
  { intros Hnil. rewrite Hnil in Hdup. simpl in Hdup. lia. }
  destruct (process_fields_card_inv shuffle _ _ Hopts Hcard)
    as (Hq & Hmc & Hparts & Hfound).
  destruct (process_row_accept lower shuffle Hperm row Hq Hmc Hparts Hfound)
    as (Hflag & _ & Hrow).
  rewrite Hrow in Hcard. injection Hcard as <-.
  assert (k ∈ row_key_set lower row) as Hkey.
  { by apply elem_of_list_to_set. }
  assert (filter (λ t, matchkey t = k) fl.*2
          ≡ₚ filter (λ opt, matchkey opt = k) (row_options lower row))
    as Htexts.
  { unfold fl. rewrite flagged_texts by (subst displayed; lia).
    rewrite list_filter_filter, <- Hdisp.
    erewrite list_filter_iff; [done|].
    intros t. simpl. split; [tauto|]. by intros <-. }
  assert (filter (λ lt, matchkey lt.2 = k) fl
          = filter (λ lt, matchkey lt.2 = k)
              (zip (display_letters (length displayed)) displayed))
    as Hpairs.
  { unfold fl, flagged. rewrite list_filter_filter.
    apply list_filter_iff. intros [l t]. simpl.
    split; [tauto|]. by intros <-. }
  assert (fl.*1 ⊆ display_letters (length displayed)) as Hsub.
  { intros l Hl. eapply elem_of_sublist; [exact Hl|].
    apply flagged_letters_sublist. }
  assert ((filter (λ lt, matchkey lt.2 = k) fl).*1 `sublist_of` fl.*1)
    as Hdupsub.
  { apply fmap_sublist, sublist_filter. }
  split; [done|]. split; [done|]. split; [apply flagged_letters_NoDup|].
  split; [by rewrite !length_fmap|]. split; [done|]. split; [done|].
  split; [by rewrite Htexts|].
  split; [|split; [|split; [|split]]].
  - cbn [snd].
    by apply (build_back_html_text (length displayed)); [subst displayed|].
  - unfold fl, flagged, zip.
    rewrite (zip_with_display_letters pair) by (subst displayed; done).
    apply list_filter_iff. intros [l t]. unfold row_key_set.
    by rewrite elem_of_list_to_set.
  - rewrite Hpairs, <- (length_fmap snd).
    rewrite (filter_zip_snd (λ t, matchkey t = k))
      by (unfold display_letters; rewrite letters_from_length;
          subst displayed; lia).
    unfold displayed. by rewrite Hdisp.
  - eapply sublist_NoDup; [apply flagged_letters_NoDup|exact Hdupsub].
  - intros l Hl. apply (display_letters_ABCD (length displayed));
      [by subst displayed|].
    apply Hsub. eapply elem_of_sublist; [exact Hl|exact Hdupsub].
Qed.

(** The options "x y" and "x  y" share a key; "x y" is named once, and the
    back lists both, under A and C. *)
Lemma duplicate_keys_all_flagged_witness :
  ∃ card,
    process_row lower_ascii (random_shuffle randbelow_example) row_duplicate
    = Returns (Some card, None)
    ∧ card.2
      = lit "<div style='text-align:left;'><div style='margin-top:8px;'><b>Richtige Antwort:</b> A, C</div><div style='margin-top:4px;'>x y</div><div style='margin-top:4px;'>x  y</div></div>"
    ∧ let displayed :=
        row_displayed lower_ascii (random_shuffle randbelow_example)
          row_duplicate in
      let fl := flagged (row_key_set lower_ascii row_duplicate) displayed in
      flag_correct 0
        (row_indexed lower_ascii (random_shuffle randbelow_example)
           row_duplicate)
        (row_key_set lower_ascii row_duplicate)
      = Returns (fl.*1, fl.*2)
      ∧ card.2 = build_back_html fl.*1 fl.*2
      ∧ NoDup fl.*1
      ∧ length fl.*1 = length fl.*2
      ∧ filter (λ lt, matchkey lt.2 = lit "x y") fl
        = filter (λ lt, matchkey lt.2 = lit "x y")
            (zip (display_letters (length displayed)) displayed)
      ∧ filter (λ t, matchkey t = lit "x y") fl.*2
        ≡ₚ filter (λ opt, matchkey opt = lit "x y")
             (row_options lower_ascii row_duplicate)
      ∧ (2 ≤ length (filter (λ t, matchkey t = lit "x y") fl.*2))%nat
      ∧ card.2
        = lit "<div style='text-align:left;'>"
          ++ lit "<div style='margin-top:8px;'><b>Richtige Antwort:</b> "
          ++ join (lit ", ") fl.*1 ++ lit "</div>"
          ++ concat
               ((λ t, lit "<div style='margin-top:4px;'>"
                      ++ replace newline (lit "<br>") (escape t)
                      ++ lit "</div>") <$> fl.*2)
          ++ lit "</div>"
      ∧ fl = filter (λ lt, matchkey lt.2
                           ∈ matchkey <$> row_parts lower_ascii row_duplicate)
               (zip [lit "A"; lit "B"; lit "C"; lit "D"] displayed)
      ∧ length (filter (λ lt, matchkey lt.2 = lit "x y") fl)
        = length (filter (λ opt, matchkey opt = lit "x y")
                    (row_options lower_ascii row_duplicate))
      ∧ NoDup (filter (λ lt, matchkey lt.2 = lit "x y") fl).*1
      ∧ (filter (λ lt, matchkey lt.2 = lit "x y") fl).*1
        ⊆ [lit "A"; lit "B"; lit "C"; lit "D"].
Proof.
  eexists. split; [vm_compute; reflexivity|].
  split; [vm_compute; reflexivity|].
  apply (duplicate_keys_all_flagged lower_ascii
           (random_shuffle randbelow_example) row_duplicate).
  - apply random_shuffle_Permutation.
  - vm_compute. reflexivity.
  - by_evaluation.
  - by_evaluation.
Defined.

(** ** Line feeds in the rendered text *)

(** What the question, the correct texts of the back and the free-text
    answer go through leaves no line feed. *)
Lemma replace_newline_free (s : pystr) :
  newline ∉ replace newline (lit "<br>") s.
Proof.
  unfold replace. intros (c & Hin & _)%list_elem_of_bind.
  destruct (decide (c = newline)).
  - assert (newline ∉ lit "<br>") as Hbr by by_evaluation. done.
  - apply list_elem_of_singleton in Hin. congruence.
Qed.

Lemma elem_of_replace_ne (c old : N) (new s : pystr) :
  c ≠ old → c ∈ s → c ∈ replace old new s.
Proof.
  intros Hne Hc. unfold replace. apply list_elem_of_bind.
  exists c. split; [|done].
  rewrite decide_False by done. by apply list_elem_of_singleton.
Qed.

(** An option of the front goes through [html.escape] alone: its line
    feeds stay in the block. *)
Lemma option_block_keeps_line_feed (letter opt : pystr) :
  newline ∈ opt → newline ∈ option_block letter opt.
Proof.
  intros Hopt. unfold option_block.
  rewrite !elem_of_app. do 5 right. left.
  unfold escape. by repeat (apply elem_of_replace_ne; [done|]).
Qed.

(** C5, at the failing row: the option holding a line feed is embedded in
    the front with the line feed as it is, while the same text, as the
    correct answer of the back, has it turned into a line break. *)
Lemma option_line_feed_kept :
  process_row lower_ascii (random_shuffle randbelow_example) row_multiline
  = Returns
      (Some
         (lit "<div style='text-align:left;'>"
          ++ lit "<div style='font-weight:700; margin-bottom:8px;'>Q</div>"
          ++ lit "<div>"
          ++ lit "<div style='margin:2px 0;'>"
          ++ lit "<span style='display:inline-block; width:24px;'>A.</span>"
          ++ lit "<span>x" ++ [newline] ++ lit "y</span></div>"
          ++ lit "<div style='margin:2px 0;'>"
          ++ lit "<span style='display:inline-block; width:24px;'>B.</span>"
          ++ lit "<span>z</span></div>"
          ++ lit "</div></div>",
          lit "<div style='text-align:left;'>"
          ++ lit "<div style='margin-top:8px;'><b>Richtige Antwort:</b> A</div>"
          ++ lit "<div style='margin-top:4px;'>x<br>y</div>"
          ++ lit "</div>"),
       None).
Proof. vm_compute. reflexivity. Qed.

(** * Further properties *)

(** ** Trimming *)

Section Trimming.

Implicit Types (s pre post : pystr) (c : N).

Lemma lstrip_decompose s :
  ∃ pre, s = pre ++ lstrip s ∧ Forall (λ c, isspace c = true) pre.
Proof.
  induction s as [|c s (pre & Hs & Hpre)]; [by exists []|]. simpl.
  destruct (isspace c) eqn:Hc; [|by exists []].
  exists (c :: pre). split; [by rewrite Hs at 1|by constructor].
Qed.

Lemma lstrip_head_nonspace s c : head (lstrip s) = Some c → isspace c = false.
Proof.
  induction s as [|c' s IH]; [done|]. simpl.
  destruct (isspace c') eqn:Hc'; [done|]. simpl. congruence.
Qed.

Lemma rstrip_last_nonspace s c : last (rstrip s) = Some c → isspace c = false.
Proof. unfold rstrip. rewrite last_reverse. apply lstrip_head_nonspace. Qed.

Lemma rstrip_head s : head s = head (rstrip s) ∨ rstrip s = [].
Proof.
  destruct (rstrip_tail s) as (t & Hs & _).
  destruct (rstrip s) as [|c u]; [by right|]. left. by rewrite Hs.
Qed.

Lemma strip_head_nonspace s c : head (strip s) = Some c → isspace c = false.
Proof.
  unfold strip. intros Hc.
  destruct (rstrip_head (lstrip s)) as [Hh|Hnil].
  - rewrite <- Hh in Hc. by apply lstrip_head_nonspace in Hc.
  - by rewrite Hnil in Hc.
Qed.

Lemma strip_fixed s :
  (∀ c, head s = Some c → isspace c = false) →
  (∀ c, last s = Some c → isspace c = false) →
  strip s = s.
Proof.
  intros Hh Hl. unfold strip.
  destruct s as [|c s]; [done|].
  rewrite lstrip_head by (by apply Hh).
  destruct (last (c :: s)) as [c'|] eqn:Hlast; [|by apply last_None in Hlast].
  apply (rstrip_last _ c'); [done|by apply Hl].
Qed.

(** Trimming takes whitespace off both ends and nothing else, and leaves
    no whitespace at either end; an absent value reads as the empty
    string. *)
Theorem normalize_trims (s : pystr) :
  normalize None = []
  ∧ (∃ pre post,
       s = pre ++ normalize (Some s) ++ post
       ∧ Forall (λ c, isspace c = true) pre
       ∧ Forall (λ c, isspace c = true) post)
  ∧ (∀ c, head (normalize (Some s)) = Some c → isspace c = false)
  ∧ (∀ c, last (normalize (Some s)) = Some c → isspace c = false)
  ∧ normalize (Some (normalize (Some s))) = normalize (Some s).
Proof.
  assert (∀ c, head (strip s) = Some c → isspace c = false) as Hh.
  { apply strip_head_nonspace. }
  assert (∀ c, last (strip s) = Some c → isspace c = false) as Hl.
  { intros c. unfold strip. apply rstrip_last_nonspace. }
  split; [done|]. split; [|split; [done|split; [done|]]].
  - destruct (lstrip_decompose s) as (pre & Hs & Hpre).
    destruct (rstrip_tail (lstrip s)) as (post & Hu & Hpost).
    exists pre, post. split; [|done].
    simpl. unfold strip. by rewrite <- Hu.
  - simpl. by apply strip_fixed.
Qed.

End Trimming.

(** ** Matching keys again *)

(** Two texts have the same matching key exactly when they are made of
    the same words in the same order. *)
Theorem matchkey_same_words (s t : pystr) :
  matchkey s = matchkey t ↔ split_ws s = split_ws t.
Proof.
  rewrite !matchkey_words. split; [|by intros ->].
  intros Heq. apply (f_equal split_ws) in Heq.
  by rewrite !split_ws_join in Heq by apply split_ws_words.
Qed.

Lemma split_ws_from_pending cur u : cur ≠ [] → split_ws_from cur u ≠ [].
Proof.
  revert cur. induction u as [|c u IH]; intros cur Hne; simpl.
  - by destruct cur.
  - destruct (isspace c); [by destruct cur|by apply IH].
Qed.

(** A text with a character that is no whitespace has a word. *)
Lemma split_ws_from_holds_nonspace cur l c r :
  isspace c = false → split_ws_from cur (l ++ c :: r) ≠ [].
Proof.
  intros Hsp. revert cur. induction l as [|c' l IH]; intros cur; simpl.
  - rewrite Hsp. by apply split_ws_from_pending.
  - destruct (isspace c'); [|apply IH].
    intros [_ Hr]%app_eq_nil. by apply (IH []) in Hr.
Qed.

(** A matching key is its own matching key: it has no whitespace around
    it, and no whitespace inside but single spaces between its words. *)
Theorem matchkey_normal_form (s : pystr) :
  matchkey (matchkey s) = matchkey s
  ∧ strip (matchkey s) = matchkey s
  ∧ split_ws (matchkey s) = split_ws s
  ∧ (∀ c, c ∈ matchkey s → isspace c = true → c = space)
  ∧ (matchkey s = [] ↔ Forall (λ c, isspace c = true) s).
Proof.
  pose proof (split_ws_words s) as Hwords.
  split; [|split; [|split; [|split]]].
  - rewrite (matchkey_words (matchkey s)), (matchkey_words s).
    by rewrite split_ws_join.
  - rewrite matchkey_words. by apply strip_join.
  - rewrite matchkey_words. by apply split_ws_join.
  - rewrite matchkey_words.
    intros c [Hsp|(w & Hw & Hc)]%elem_of_join Hspace.
    + by apply list_elem_of_singleton in Hsp.
    + apply (proj1 (Forall_forall _ _) Hwords) in Hw as [_ Hw].
      apply (proj1 (Forall_forall _ _) Hw) in Hc. congruence.
  - rewrite matchkey_words. split.
    + intros Hnil.
      assert (split_ws s = []) as Hno.
      { destruct (split_ws s) as [|w ws]; [done|].
        apply Forall_cons_1 in Hwords as [[Hne _] _].
        destruct ws; simpl in Hnil; [done|]. by destruct w. }
      apply Forall_forall. intros c Hc.
      destruct (isspace c) eqn:Hsp; [done|].
      apply list_elem_of_split in Hc as (l & r & ->).
      by apply split_ws_from_holds_nonspace in Hno.
    + intros Hs. pose proof (split_ws_app_spaces [] s Hs) as Hno.
      simpl in Hno. by rewrite Hno.
Qed.

(** ** The parts of the correct-answer field *)

Lemma strip_idemp (s : pystr) : strip (strip s) = strip s.
Proof.
  apply strip_fixed; [apply strip_head_nonspace|].
  intros c. unfold strip. apply rstrip_last_nonspace.
Qed.

Lemma strip_subseteq (s : pystr) : strip s ⊆ s.
Proof.
  destruct (lstrip_decompose s) as (pre & Hs & _).
  destruct (rstrip_tail (lstrip s)) as (post & Hu & _).
  intros c Hc. rewrite Hs, Hu, !elem_of_app. right. by left.
Qed.

Lemma split_on_from_sep_free (cur : pystr) (sep : N) (s : pystr) :
  sep ∉ cur → Forall (λ p, sep ∉ p) (split_on_from cur sep s).
Proof.
  revert cur. induction s as [|c s IH]; intros cur Hcur; simpl.
  - repeat constructor. by rewrite elem_of_reverse.
  - destruct (decide (c = sep)) as [->|Hc].
    + constructor; [by rewrite elem_of_reverse|].
      apply IH. by intros ?%elem_of_nil.
    + apply IH. intros [?|?]%elem_of_cons; congruence.
Qed.

Lemma join_split_on_from (cur : pystr) (sep : N) (s : pystr) :
  join [sep] (split_on_from cur sep s) = reverse cur ++ s.
Proof.
  revert cur. induction s as [|c s IH]; intros cur; simpl.
  - by rewrite (right_id_L [] (++)).
  - destruct (decide (c = sep)) as [->|Hc].
    + pose proof (split_on_from_nonempty [] sep s) as Hne.
      specialize (IH []).
      destruct (split_on_from [] sep s) as [|p ps]; [done|].
      change (join [sep] (reverse cur :: p :: ps))
        with (reverse cur ++ [sep] ++ join [sep] (p :: ps)).
      by rewrite IH.
    + by rewrite IH, reverse_cons, <- (assoc_L (++)).
Qed.

(** Splitting the correct-answer field at the pipes loses nothing: the
    pieces joined by pipes are the field again.  The parts kept of it are
    non-empty, trimmed and without pipe, and each is the trimmed form of a
    piece. *)
Theorem correct_parts_wellformed (correct_raw : pystr) :
  join (lit "|") (split_on pipe correct_raw) = correct_raw
  ∧ Forall (λ p, p ≠ [] ∧ strip p = p ∧ (pipe ∉ p)
                 ∧ ∃ piece, piece ∈ split_on pipe correct_raw
                            ∧ p = strip piece)
      (correct_parts correct_raw).
Proof.
  split; [apply (join_split_on_from [] pipe)|].
  unfold correct_parts. apply Forall_forall. intros p Hp.
  apply list_elem_of_fmap in Hp as (piece & -> & Hpiece).
  apply list_elem_of_filter in Hpiece as [Hne Hpiece].
  split; [done|]. split; [apply strip_idemp|]. split; [|by exists piece].
  intros Hpipe%strip_subseteq.
  pose proof (split_on_from_sep_free [] pipe correct_raw) as Hfree.
  apply (proj1 (Forall_forall _ _) (Hfree ltac:(by intros ?%elem_of_nil)))
    in Hpiece.
  done.
Qed.

(** ** Escaping *)

(** Escaped text holds none of the characters that open or close markup
    or an attribute value. *)
Lemma escape_no_markup (s : pystr) :
  (langle ∉ escape s) ∧ (rangle ∉ escape s)
  ∧ (dquote ∉ escape s) ∧ (squote ∉ escape s).
Proof.
  unfold escape.
  repeat split; intros Hin;
    repeat (apply elem_of_replace in Hin as [Hin|[Hin ?]];
            [exfalso; revert Hin; by_evaluation|]; try done).
Qed.

(** ** The characters of a card *)

(** Settles that every character of one closed text is in another. *)
Ltac subset_by_evaluation :=
  match goal with
  | |- ∀ c, c ∈ ?l → c ∈ ?k => change (l ⊆ k)
  end;
  by_evaluation.

Section Characters.

Implicit Types (c : N) (s q opt : pystr).

Lemma elem_of_concat c (ls : list pystr) :
  c ∈ concat ls ↔ ∃ l, l ∈ ls ∧ c ∈ l.
Proof.
  induction ls as [|l ls IH]; simpl.
  - split; [by intros ?%elem_of_nil|by intros (l & ?%elem_of_nil & _)].
  - rewrite elem_of_app, IH. split.
    + intros [Hc|(l' & Hl' & Hc)]; [exists l|exists l']; split; try done;
        [by left|by right].
    + intros (l' & [->|Hl']%elem_of_cons & Hc); [by left|right; by exists l'].
Qed.

(** What [html.escape] writes is the text, or part of an entity. *)
Lemma elem_of_escape c s : c ∈ escape s → c ∈ template_alphabet ∨ c ∈ s.
Proof.
  unfold escape. intros Hin.
  repeat (apply elem_of_replace in Hin as [Hin|[Hin _]];
          [left; revert c Hin; subset_by_evaluation|]).
  by right.
Qed.

Lemma elem_of_escape_br c s :
  c ∈ replace newline (lit "<br>") (escape s) →
  c ∈ template_alphabet ∨ (c ∈ escape s ∧ c ≠ newline).
Proof.
  intros [Hin|Hin]%elem_of_replace; [left; revert c Hin; subset_by_evaluation|].
  by right.
Qed.

Lemma letters_from_alphabet i n l c :
  l ∈ letters_from i n → c ∈ l → c ∈ template_alphabet.
Proof.
  unfold letters_from. intros (c' & -> & Hc')%list_elem_of_fmap Hc.
  apply list_elem_of_singleton in Hc as ->.
  assert (c' ∈ ascii_uppercase) as Hup.
  { eapply elem_of_sublist; [exact Hc'|].
    etrans; [apply sublist_take|apply sublist_drop]. }
  clear Hc'. revert c' Hup. subset_by_evaluation.
Qed.

Lemma elem_of_option_block c letter opt :
  c ∈ option_block letter opt →
  c ∈ template_alphabet ∨ c ∈ letter ∨ c ∈ escape opt.
Proof.
  unfold option_block. rewrite !elem_of_app.
  intros [Hc|[Hc|[Hc|[Hc|[Hc|[Hc|[Hc|Hc]]]]]]]; auto;
    left; revert c Hc; subset_by_evaluation.
Qed.

Lemma elem_of_front_layout c q (displayed : list pystr) :
  c ∈ front_layout q displayed →
  c ∈ template_alphabet
  ∨ (c ∈ escape q ∧ c ≠ newline)
  ∨ ∃ opt, opt ∈ displayed ∧ c ∈ escape opt.
Proof.
  unfold front_layout. intros (part & Hpart & Hc)%elem_of_concat.
  apply elem_of_app in Hpart as [Hpart|Hpart].
  { apply elem_of_cons in Hpart as [->|Hpart];
      [left; revert c Hc; subset_by_evaluation|].
    apply list_elem_of_singleton in Hpart as ->.
    rewrite !elem_of_app in Hc. destruct Hc as [Hc|[Hc|Hc]].
    - left. revert c Hc. subset_by_evaluation.
    - apply elem_of_escape_br in Hc. tauto.
    - left. revert c Hc. subset_by_evaluation. }
  apply elem_of_app in Hpart as [Hpart|Hpart].
  2: { apply list_elem_of_singleton in Hpart as ->.
       left. revert c Hc. subset_by_evaluation. }
  destruct displayed as [|opt0 rest]; [by apply elem_of_nil in Hpart|].
  apply elem_of_app in Hpart as [Hpart|Hpart].
  { apply list_elem_of_singleton in Hpart as ->.
    left. revert c Hc. subset_by_evaluation. }
  apply elem_of_app in Hpart as [Hpart|Hpart].
  2: { apply list_elem_of_singleton in Hpart as ->.
       left. revert c Hc. subset_by_evaluation. }
  apply elem_of_zip_with in Hpart as (letter & opt & -> & Hletter & Hopt).
  apply elem_of_option_block in Hc as [Hc|[Hc|Hc]]; [by left| |].
  - left. by eapply letters_from_alphabet.
  - right; right. by exists opt.
Qed.

Lemma elem_of_build_back_html c (letters texts : list pystr) :
  c ∈ build_back_html letters texts →
  c ∈ template_alphabet
  ∨ (∃ letter, letter ∈ letters ∧ c ∈ letter)
  ∨ ∃ t, t ∈ texts ∧ c ∈ escape t ∧ c ≠ newline.
Proof.
  unfold build_back_html. rewrite !elem_of_app.
  intros [Hc|[Hc|[Hc|[Hc|[Hc|Hc]]]]];
    try (left; revert c Hc; subset_by_evaluation).
  - apply elem_of_escape in Hc as [Hc|Hc]; [by left|].
    apply elem_of_join in Hc as [Hc|(letter & Hl & Hc)].
    + left. revert c Hc. subset_by_evaluation.
    + right; left. by exists letter.
  - apply elem_of_concat in Hc as (block & Hblock & Hc).
    apply list_elem_of_fmap in Hblock as (t & -> & Ht).
    rewrite !elem_of_app in Hc. destruct Hc as [Hc|[Hc|Hc]];
      try (left; revert c Hc; subset_by_evaluation).
    apply elem_of_escape_br in Hc as [Hc|[Hc Hne]]; [by left|].
    right; right. by exists t.
Qed.

Lemma elem_of_freetext_back c (correct_raw : pystr) :
  c ∈ freetext_back correct_raw →
  c ∈ template_alphabet ∨ (c ∈ escape correct_raw ∧ c ≠ newline).
Proof.
  unfold freetext_back. rewrite !elem_of_app.
  intros [Hc|[Hc|[Hc|[Hc|[Hc|Hc]]]]];
    try (left; revert c Hc; subset_by_evaluation).
  by apply elem_of_escape_br in Hc.
Qed.

End Characters.

(** ** The front of a card *)

Lemma option_blocks_raises i options :
  (i ≤ 26)%nat → (26 < i + length options)%nat →
  option_blocks i options = IndexError.
Proof.
  revert i. induction options as [|opt rest IH]; intros i Hi Hlen; simpl in *.
  { lia. }
  unfold getitem. destruct (decide (i = 26%nat)) as [->|Hne]; [done|].
  destruct (ascii_uppercase_lookup i) as [c Hc]; [lia|].
  rewrite Hc. cbn [mbind exc_bind]. rewrite IH by lia. done.
Qed.

Lemma build_front_html_returns_iff q options front :
  build_front_html q options = Returns front
  ↔ (length options ≤ 26)%nat ∧ front = front_layout q options.
Proof.
  split.
  - intros Hres. destruct (decide (length options ≤ 26)%nat) as [Hle|Hgt].
    + rewrite build_front_html_returns in Hres by done.
      split; [done|congruence].
    + unfold build_front_html in Hres.
      destruct options as [|opt rest]; [simpl in Hgt; lia|].
      by rewrite option_blocks_raises in Hres by (simpl in *; lia).
  - intros [Hle ->]. by apply build_front_html_returns.
Qed.

(** [build_front_html] lays out up to twenty-six options, one per
    letter of the alphabet, and raises [IndexError] on any longer list. *)
Theorem build_front_html_bounds (q : pystr) (options : list pystr) :
  build_front_html q options
  = if decide (length options ≤ 26)%nat
    then Returns (front_layout q options)
    else IndexError.
Proof.
  destruct (decide (length options ≤ 26)%nat) as [Hle|Hgt].
  - by apply build_front_html_returns.
  - unfold build_front_html.
    destruct options as [|opt rest]; [simpl in Hgt; lia|].
    rewrite option_blocks_raises by (simpl in *; lia). done.
Qed.

Lemma option_block_in_layout q (displayed : list pystr) opt :
  (length displayed ≤ 26)%nat → opt ∈ displayed →
  ∃ letter, ∀ c, c ∈ option_block letter opt → c ∈ front_layout q displayed.
Proof.
  intros Hlen [i Hi]%list_elem_of_lookup.
  pose proof (lookup_lt_Some _ _ _ Hi) as Hlt.
  destruct (lookup_lt_is_Some_2 (display_letters (length displayed)) i)
    as [letter Hletter].
  { unfold display_letters. rewrite letters_from_length; lia. }
  exists letter. intros c Hc. unfold front_layout.
  apply elem_of_concat. exists (option_block letter opt). split; [|done].
  destruct displayed as [|opt0 rest]; [done|].
  rewrite !elem_of_app. right; left; right; left.
  apply list_elem_of_lookup. exists i.
  apply lookup_zip_with_Some. by exists letter, opt.
Qed.

Lemma front_layout_line_feeds q (displayed : list pystr) :
  (length displayed ≤ 26)%nat →
  (newline ∈ front_layout q displayed
   ↔ ∃ opt, opt ∈ displayed ∧ newline ∈ opt)
  ∧ (dquote ∉ front_layout q displayed).
Proof.
  intros Hlen. split; [split|].
  - intros [Hc|[[Hc Hne]|(opt & Hopt & Hc)]]%elem_of_front_layout.
    + exfalso. revert Hc. by_evaluation.
    + done.
    + exists opt. split; [done|].
      apply elem_of_escape in Hc as [Hc|Hc]; [|done].
      exfalso. revert Hc. by_evaluation.
  - intros (opt & Hopt & Hc).
    destruct (option_block_in_layout q displayed opt Hlen Hopt) as [l Hl].
    by apply Hl, option_block_keeps_line_feed.
  - intros [Hc|[[Hc Hne]|(opt & Hopt & Hc)]]%elem_of_front_layout.
    + revert Hc. by_evaluation.
    + by apply (escape_no_markup q) in Hc.
    + by apply (escape_no_markup opt) in Hc.
Qed.

(** The front [build_front_html] returns holds a line feed exactly
    when one of the displayed options does (the question's are turned into
    line breaks), and never a double quote. *)
Theorem front_line_feeds (q : pystr) (options : list pystr) (front : pystr) :
  build_front_html q options = Returns front →
  (newline ∈ front ↔ ∃ opt, opt ∈ options ∧ newline ∈ opt)
  ∧ (dquote ∉ front).
Proof.
  rewrite build_front_html_returns_iff. intros [Hlen ->].
  by apply front_layout_line_feeds.
Qed.

Lemma front_line_feeds_witness :
  ∃ front,
    build_front_html (lit "Q") options_multiline = Returns front
    ∧ (newline ∈ front ↔ ∃ opt, opt ∈ options_multiline ∧ newline ∈ opt)
    ∧ (dquote ∉ front).
Proof.
  eexists. split.
  - vm_compute. reflexivity.
  - apply (front_line_feeds (lit "Q") options_multiline).
    vm_compute. reflexivity.
Defined.

(** ** The outcome of a row *)

Section OutcomeTable.

Variable shuffle : list (nat * pystr) → list (nat * pystr).

Implicit Types (cf : CanonicalFields).

(** Whatever the shuffle does, the multiple-choice path past its guards
    ends in a card, in the rejection after the shuffle or in an
    exception. *)
Lemma process_fields_tail cf (res : option (pystr * pystr) * option reason) :
  ('(correct_letters, correct_texts) ←
     flag_correct 0 (shuffle (enumerate (nonempty_options cf)))
       (list_to_set (matchkey <$> correct_parts (correctRaw cf)));
   if decide (correct_letters = []) then
     Returns (None, Some correct_answer_not_found)
   else
     front ← build_front_html (question cf)
                (shuffle (enumerate (nonempty_options cf))).*2;
     Returns (Some (front, build_back_html correct_letters correct_texts),
              None)) = Returns res →
  res = (None, Some correct_answer_not_found) ∨ ∃ card, res = (Some card, None).
Proof.
  destruct (flag_correct _ _ _) as [[ls ts]|]; [|done]. cbn [mbind exc_bind].
  destruct (decide (ls = [])); [intros [= <-]; by left|].
  destruct (build_front_html _ _) as [front|]; [|done]. cbn [mbind exc_bind].
  intros [= <-]. right. by eexists.
Qed.

(** The guards of [process_fields], in the order it tries them. *)
Lemma process_fields_guards cf (res : option (pystr * pystr) * option reason) :
  process_fields shuffle cf = Returns res →
  (question cf = [] ∧ res = (None, Some missing_question))
  ∨ (question cf ≠ [] ∧ nonempty_options cf = [] ∧ correctRaw cf = []
     ∧ res = (None, Some missing_correct_answer))
  ∨ (question cf ≠ [] ∧ nonempty_options cf = [] ∧ correctRaw cf ≠ []
     ∧ res = (Some (front_layout (question cf) [],
                    freetext_back (correctRaw cf)), None))
  ∨ (question cf ≠ [] ∧ length (nonempty_options cf) = 1%nat
     ∧ res = (None, Some not_enough_options))
  ∨ (question cf ≠ [] ∧ (2 ≤ length (nonempty_options cf))%nat
     ∧ correct_parts (correctRaw cf) = []
     ∧ res = (None, Some missing_correct_answer))
  ∨ (question cf ≠ [] ∧ (2 ≤ length (nonempty_options cf))%nat
     ∧ correct_parts (correctRaw cf) ≠ []
     ∧ (res = (None, Some correct_answer_not_found)
        ∨ ∃ card, res = (Some card, None))).
Proof.
  unfold process_fields.
  destruct (decide (question cf = [])); [intros [= <-]; by left|].
  destruct (decide (length (nonempty_options cf) = 0%nat)) as [Hz|Hnz].
  { apply nil_length_inv in Hz.
    destruct (decide (correctRaw cf = [])).
    - intros [= <-]. right; left. done.
    - rewrite build_front_html_returns by (simpl; lia).
      intros [= <-]. right; right; left. done. }
  destruct (decide (length (nonempty_options cf) < 2)%nat).
  { intros [= <-]. do 3 right. left. split; [done|]. split; [lia|done]. }
  destruct (decide (correctRaw cf = [])) as [Hraw|Hraw].
  { intros [= <-]. do 4 right. left. rewrite Hraw.
    split; [done|]. split; [lia|done]. }
  destruct (decide (correct_parts (correctRaw cf) = [])).
  { intros [= <-]. do 4 right. left. split; [done|]. split; [lia|done]. }
  destruct (decide (Exists _ _)).
  { intros [= <-]. do 5 right. split; [done|]. split; [lia|]. split; [done|].
    by left. }
  intros Hres%process_fields_tail.
  do 5 right. split; [done|]. split; [lia|done].
Qed.

End OutcomeTable.

(** A row is rejected with [missing_question] exactly when its question
    is empty after trimming, whatever its other fields hold. *)
Theorem missing_question_iff
    (lower : pystr → pystr) (shuffle : list (nat * pystr) → list (nat * pystr))
    (row : Row) :
  process_row lower shuffle row = Returns (None, Some missing_question)
  ↔ question (canonical_fields lower row) = [].
Proof.
  split.
  - intros Hres%process_fields_guards.
    destruct Hres as [[? _]|[H|[H|[H|[H|H]]]]]; [done|exfalso..].
    + by destruct H as (_ & _ & _ & ?).
    + by destruct H as (_ & _ & _ & ?).
    + by destruct H as (_ & _ & ?).
    + by destruct H as (_ & _ & _ & ?).
    + by destruct H as (_ & _ & _ & [?|[? ?]]).
  - intros Hq. unfold process_row, process_fields. by rewrite decide_True.
Qed.

(** A row is rejected with [not_enough_options] exactly when it has a
    question and one single non-empty option. *)
Theorem not_enough_options_iff
    (lower : pystr → pystr) (shuffle : list (nat * pystr) → list (nat * pystr))
    (row : Row) :
  process_row lower shuffle row = Returns (None, Some not_enough_options)
  ↔ question (canonical_fields lower row) ≠ []
    ∧ length (row_options lower row) = 1%nat.
Proof.
  split.
  - intros Hres%process_fields_guards.
    destruct Hres as [H|[H|[H|[H|[H|H]]]]]; [exfalso..| |exfalso|exfalso].
    + by destruct H as (_ & ?).
    + by destruct H as (_ & _ & _ & ?).
    + by destruct H as (_ & _ & _ & ?).
    + by destruct H as (? & ? & _).
    + by destruct H as (_ & _ & _ & ?).
    + by destruct H as (_ & _ & _ & [?|[? ?]]).
  - intros [Hq Hone]. unfold process_row, process_fields.
    unfold row_options in Hone. rewrite decide_False by done.
    rewrite Hone. done.
Qed.

(** A row is rejected with [missing_correct_answer] exactly when it has a
    question and either no option and an empty correct-answer field, or
    two or more options and no part in that field (it is empty, or made of
    pipes and whitespace only). *)
Theorem missing_correct_answer_iff
    (lower : pystr → pystr) (shuffle : list (nat * pystr) → list (nat * pystr))
    (row : Row) :
  process_row lower shuffle row = Returns (None, Some missing_correct_answer)
  ↔ question (canonical_fields lower row) ≠ []
    ∧ ((row_options lower row = []
        ∧ correctRaw (canonical_fields lower row) = [])
       ∨ ((2 ≤ length (row_options lower row))%nat
          ∧ row_parts lower row = [])).
Proof.
  split.
  - intros Hres%process_fields_guards.
    destruct Hres as [H|[H|[H|[H|[H|H]]]]].
    + by destruct H as (_ & ?).
    + destruct H as (? & ? & ? & _). split; [done|]. by left.
    + by destruct H as (_ & _ & _ & ?).
    + by destruct H as (_ & _ & ?).
    + destruct H as (? & ? & ? & _). split; [done|]. by right.
    + by destruct H as (_ & _ & _ & [?|[? ?]]).
  - intros [Hq Hcase]. unfold process_row, process_fields.
    unfold row_options, row_parts in Hcase.
    rewrite decide_False by done.
    destruct Hcase as [[Hnone Hraw]|[Hlen Hparts]].
    + rewrite Hnone. simpl. by rewrite decide_True.
    + destruct (decide (length _ = 0%nat)); [lia|].
      destruct (decide (length _ < 2)%nat); [lia|].
      destruct (decide (correctRaw _ = [])); [done|].
      by rewrite decide_True.
Qed.

(** ** Cards *)

Section Cards.

Variable lower : pystr → pystr.
Variable shuffle : list (nat * pystr) → list (nat * pystr).
Hypothesis shuffle_perm : ∀ indexed, shuffle indexed ≡ₚ indexed.

Implicit Types (row : Row) (card : pystr * pystr).

(** The two kinds of card. *)
Lemma process_row_card_inv row card :
  process_row lower shuffle row = Returns (Some card, None) →
  (row_options lower row = []
   ∧ question (canonical_fields lower row) ≠ []
   ∧ correctRaw (canonical_fields lower row) ≠ []
   ∧ card = (front_layout (question (canonical_fields lower row)) [],
             freetext_back (correctRaw (canonical_fields lower row))))
  ∨ (row_options lower row ≠ []
     ∧ question (canonical_fields lower row) ≠ []
     ∧ (2 ≤ length (row_options lower row))%nat
     ∧ row_parts lower row ≠ []
     ∧ Forall (λ p, matchkey p ∈ matchkey <$> row_options lower row)
         (row_parts lower row)
     ∧ let fl := flagged (row_key_set lower row)
                   (row_displayed lower shuffle row) in
       fl ≠ []
       ∧ card = (front_layout (question (canonical_fields lower row))
                   (row_displayed lower shuffle row),
                 build_back_html fl.*1 fl.*2)).
Proof.
  intros Hcard.
  destruct (decide (row_options lower row = [])) as [Hnone|Hopts].
  - left. apply process_fields_guards in Hcard.
    unfold row_options in Hnone.
    destruct Hcard as [H|[H|[H|[H|[H|H]]]]].
    + by destruct H as (_ & ?).
    + by destruct H as (_ & _ & _ & ?).
    + destruct H as (? & ? & ? & [= ->]). done.
    + destruct H as (_ & Hone & _). by rewrite Hnone in Hone.
    + destruct H as (_ & Hlen & _). rewrite Hnone in Hlen. simpl in Hlen. lia.
    + destruct H as (_ & Hlen & _). rewrite Hnone in Hlen. simpl in Hlen. lia.
  - right.
    destruct (process_fields_card_inv shuffle _ _ Hopts Hcard)
      as (Hq & Hmc & Hparts & Hfound).
    destruct (process_row_accept lower shuffle shuffle_perm row
                Hq Hmc Hparts Hfound) as (_ & Hfl & Hrow).
    rewrite Hrow in Hcard. injection Hcard as <-. done.
Qed.

End Cards.

Lemma process_row_two_ways
    (lower : pystr → pystr) (shuffle : list (nat * pystr) → list (nat * pystr))
    (row : Row) :
  (∀ indexed, shuffle indexed ≡ₚ indexed) →
  (∃ card, process_row lower shuffle row = Returns (Some card, None))
  ∨ (∃ r, process_row lower shuffle row = Returns (None, Some r)).
Proof.
  intros Hperm.
  destruct (process_fields_returns shuffle Hperm (canonical_fields lower row))
    as [res Hres].
  unfold process_row. rewrite Hres.
  apply process_fields_guards in Hres.
  destruct Hres as [H|[H|[H|[H|[H|H]]]]].
  - destruct H as (_ & ->). right. by eexists.
  - destruct H as (_ & _ & _ & ->). right. by eexists.
  - destruct H as (_ & _ & _ & ->). left. by eexists.
  - destruct H as (_ & _ & ->). right. by eexists.
  - destruct H as (_ & _ & _ & ->). right. by eexists.
  - destruct H as (_ & _ & _ & [->|[card ->]]); [right|left]; by eexists.
Qed.

(** [process_row] returns a card without reason or a reason without card,
    never both and never neither. *)
Theorem card_or_reason
    (lower : pystr → pystr) (shuffle : list (nat * pystr) → list (nat * pystr))
    (row : Row) :
  (∀ indexed, shuffle indexed ≡ₚ indexed) →
  (∃ card, process_row lower shuffle row = Returns (Some card, None))
  ∨ (∃ r, process_row lower shuffle row = Returns (None, Some r)).
Proof. apply process_row_two_ways. Qed.

Lemma card_or_reason_witness :
  (∃ card,
     process_row lower_ascii (random_shuffle randbelow_example) row_unmapped
     = Returns (Some card, None))
  ∨ (∃ r,
       process_row lower_ascii (random_shuffle randbelow_example) row_unmapped
       = Returns (None, Some r)).
Proof.
  apply (card_or_reason lower_ascii (random_shuffle randbelow_example)
           row_unmapped).
  apply random_shuffle_Permutation.
Defined.

(** A row becomes a card exactly when it has a question and either no
    option and a non-empty correct-answer field (a free-text card), or at
    least two options and at least one part, every part matching an
    option. *)
Theorem card_iff
    (lower : pystr → pystr) (shuffle : list (nat * pystr) → list (nat * pystr))
    (row : Row) :
  (∀ indexed, shuffle indexed ≡ₚ indexed) →
  (∃ card, process_row lower shuffle row = Returns (Some card, None))
  ↔ question (canonical_fields lower row) ≠ []
    ∧ ((row_options lower row = []
        ∧ correctRaw (canonical_fields lower row) ≠ [])
       ∨ ((2 ≤ length (row_options lower row))%nat
          ∧ row_parts lower row ≠ []
          ∧ Forall (λ p, matchkey p ∈ matchkey <$> row_options lower row)
              (row_parts lower row))).
Proof.
  intros Hperm. split.
  - intros [card Hcard].
    apply (process_row_card_inv lower shuffle Hperm) in Hcard.
    destruct Hcard as [(? & ? & ? & _)|(_ & ? & ? & ? & ? & _)].
    + split; [done|]. by left.
    + split; [done|]. by right.
  - intros [Hq [[Hnone Hraw]|(Hlen & Hparts & Hfound)]].
    + unfold process_row, process_fields. unfold row_options in Hnone.
      destruct (decide (question _ = [])); [done|]. rewrite Hnone.
      cbn [length]. destruct (decide (0%nat = 0%nat)); [|done].
      destruct (decide (correctRaw _ = [])); [done|].
      rewrite build_front_html_returns by (simpl; lia). by eexists.
    + destruct (process_row_accept lower shuffle Hperm row
                  Hq Hlen Hparts Hfound) as (_ & _ & Hrow).
      by eexists.
Qed.

Lemma card_iff_witness :
  (∃ card,
     process_row lower_ascii (random_shuffle randbelow_example) row_freetext
     = Returns (Some card, None))
  ↔ question (canonical_fields lower_ascii row_freetext) ≠ []
    ∧ ((row_options lower_ascii row_freetext = []
        ∧ correctRaw (canonical_fields lower_ascii row_freetext) ≠ [])
       ∨ ((2 ≤ length (row_options lower_ascii row_freetext))%nat
          ∧ row_parts lower_ascii row_freetext ≠ []
          ∧ Forall
              (λ p, matchkey p
                    ∈ matchkey <$> row_options lower_ascii row_freetext)
              (row_parts lower_ascii row_freetext))).
Proof.
  apply (card_iff lower_ascii (random_shuffle randbelow_example)
           row_freetext).
  apply random_shuffle_Permutation.
Defined.

(** ** The faces of a card *)

Lemma display_letters_prefix n :
  (n ≤ 4)%nat →
  display_letters n `sublist_of` [lit "A"; lit "B"; lit "C"; lit "D"].
Proof.
  intros Hn.
  do 5 (destruct n as [|n];
        [vm_compute; repeat apply sublist_skip; apply sublist_nil_l|]).
  lia.
Qed.

Lemma process_row_card_characters
    (lower : pystr → pystr) (shuffle : list (nat * pystr) → list (nat * pystr))
    (row : Row) (card : pystr * pystr) :
  (∀ indexed, shuffle indexed ≡ₚ indexed) →
  process_row lower shuffle row = Returns (Some card, None) →
  (dquote ∉ card.1) ∧ (dquote ∉ card.2) ∧ (newline ∉ card.2)
  ∧ (newline ∈ card.1
     ↔ ∃ opt, opt ∈ row_options lower row ∧ newline ∈ opt).
Proof.
  intros Hperm Hcard.
  pose proof (row_displayed_length lower shuffle Hperm row) as Hlen.
  pose proof (row_displayed_Permutation lower shuffle Hperm row) as Hdisp.
  apply (process_row_card_inv lower shuffle Hperm) in Hcard.
  destruct Hcard as [(Hnone & _ & _ & ->)|(_ & _ & _ & _ & _ & _ & ->)];
    cbn [fst snd].
  - destruct (front_layout_line_feeds
                (question (canonical_fields lower row)) [])
      as [Hnl Hdq]; [simpl; lia|].
    split; [done|]. rewrite Hnl, Hnone.
    repeat split.
    + intros [Hc|[Hc _]]%elem_of_freetext_back; [revert Hc; by_evaluation|].
      by apply (escape_no_markup _) in Hc.
    + intros [Hc|[_ Hne]]%elem_of_freetext_back; [revert Hc; by_evaluation|].
      done.
    + by intros (opt & Hopt%elem_of_nil & _).
    + by intros (opt & Hopt%elem_of_nil & _).
  - destruct (front_layout_line_feeds
                (question (canonical_fields lower row))
                (row_displayed lower shuffle row))
      as [Hnl Hdq]; [lia|].
    split; [done|]. rewrite Hnl.
    assert (∀ c letter,
              letter ∈ (flagged (row_key_set lower row)
                          (row_displayed lower shuffle row)).*1 →
              c ∈ letter → c ∈ template_alphabet) as Hletters.
    { intros c letter Hl Hc.
      eapply letters_from_alphabet; [|exact Hc].
      eapply elem_of_sublist; [exact Hl|apply flagged_letters_sublist]. }
    repeat split.
    + intros [Hc|[(l & Hl & Hc)|(t & _ & Hc & _)]]%elem_of_build_back_html.
      * revert Hc. by_evaluation.
      * apply (Hletters _ _ Hl) in Hc. revert Hc. by_evaluation.
      * by apply (escape_no_markup _) in Hc.
    + intros [Hc|[(l & Hl & Hc)|(t & _ & _ & Hne)]]%elem_of_build_back_html.
      * revert Hc. by_evaluation.
      * apply (Hletters _ _ Hl) in Hc. revert Hc. by_evaluation.
      * done.
    + intros (opt & Hopt & Hc). exists opt. by rewrite <- Hdisp.
    + intros (opt & Hopt & Hc). exists opt. by rewrite Hdisp.
Qed.

(** No face of a card holds a double quote, and its back holds no line
    feed; its front holds one exactly when an option of the row does. *)
Theorem card_faces_characters
    (lower : pystr → pystr) (shuffle : list (nat * pystr) → list (nat * pystr))
    (row : Row) (card : pystr * pystr) :
  (∀ indexed, shuffle indexed ≡ₚ indexed) →
  process_row lower shuffle row = Returns (Some card, None) →
  (dquote ∉ card.1) ∧ (dquote ∉ card.2) ∧ (newline ∉ card.2)
  ∧ (newline ∈ card.1
     ↔ ∃ opt, opt ∈ row_options lower row ∧ newline ∈ opt).
Proof. apply process_row_card_characters. Qed.

Lemma card_faces_characters_witness :
  ∃ card,
    process_row lower_ascii (random_shuffle randbelow_example) row_multiline
    = Returns (Some card, None)
    ∧ (dquote ∉ card.1) ∧ (dquote ∉ card.2) ∧ (newline ∉ card.2)
    ∧ (newline ∈ card.1
       ↔ ∃ opt, opt ∈ row_options lower_ascii row_multiline ∧ newline ∈ opt).
Proof.
  eexists. split.
  - vm_compute. reflexivity.
  - apply (card_faces_characters lower_ascii
             (random_shuffle randbelow_example) row_multiline).
    + apply random_shuffle_Permutation.
    + vm_compute. reflexivity.
Defined.

(** The correct letters of a multiple-choice card are listed in
    alphabetical order without repetition: they are picked, in order, from
    A, B, C, D; there is at least one, and no more than there are
    options. *)
Theorem correct_letters_alphabetical
    (lower : pystr → pystr) (shuffle : list (nat * pystr) → list (nat * pystr))
    (row : Row) (card : pystr * pystr) :
  (∀ indexed, shuffle indexed ≡ₚ indexed) →
  row_options lower row ≠ [] →
  process_row lower shuffle row = Returns (Some card, None) →
  ∃ letters texts,
    flag_correct 0 (row_indexed lower shuffle row) (row_key_set lower row)
    = Returns (letters, texts)
    ∧ card.2 = build_back_html letters texts
    ∧ letters `sublist_of` [lit "A"; lit "B"; lit "C"; lit "D"]
    ∧ (1 ≤ length letters ≤ length (row_options lower row))%nat
    ∧ length texts = length letters.
Proof.
  intros Hperm Hopts Hcard.
  pose proof (row_displayed_length lower shuffle Hperm row) as Hlen.
  pose proof (row_displayed_Permutation lower shuffle Hperm row) as Hdisp.
  destruct (process_fields_card_inv shuffle _ _ Hopts Hcard)
    as (Hq & Hmc & Hparts & Hfound).
  destruct (process_row_accept lower shuffle Hperm row Hq Hmc Hparts Hfound)
    as (Hflag & Hfl & Hrow).
  rewrite Hrow in Hcard. injection Hcard as <-.
  eexists _, _. split; [exact Hflag|]. split; [done|].
  pose proof (flagged_letters_sublist (row_key_set lower row)
                (row_displayed lower shuffle row)) as Hsub.
  split; [|split; [split|by rewrite !length_fmap]].
  - etrans; [exact Hsub|]. by apply display_letters_prefix.
  - rewrite length_fmap. destruct (flagged _ _); [done|simpl; lia].
  - apply sublist_length in Hsub. unfold display_letters in Hsub.
    rewrite letters_from_length in Hsub by lia.
    by rewrite <- Hdisp.
Qed.

Lemma correct_letters_alphabetical_witness :
  ∃ card,
    process_row lower_ascii (random_shuffle randbelow_example) row_duplicate
    = Returns (Some card, None)
    ∧ ∃ letters texts,
        flag_correct 0
          (row_indexed lower_ascii (random_shuffle randbelow_example)
             row_duplicate)
          (row_key_set lower_ascii row_duplicate)
        = Returns (letters, texts)
        ∧ card.2 = build_back_html letters texts
        ∧ letters `sublist_of` [lit "A"; lit "B"; lit "C"; lit "D"]
        ∧ (1 ≤ length letters
           ≤ length (row_options lower_ascii row_duplicate))%nat
        ∧ length texts = length letters.
Proof.
  eexists. split.
  - vm_compute. reflexivity.
  - apply (correct_letters_alphabetical lower_ascii
             (random_shuffle randbelow_example) row_duplicate).
    + apply random_shuffle_Permutation.
    + by_evaluation.
    + vm_compute. reflexivity.
Defined.

(** With pairwise distinct option keys, a multiple-choice card has as
    many correct letters as the correct-answer field names distinct
    keys. *)
Theorem correct_letters_count
    (lower : pystr → pystr) (shuffle : list (nat * pystr) → list (nat * pystr))
    (row : Row) (card : pystr * pystr) :
  (∀ indexed, shuffle indexed ≡ₚ indexed) →
  NoDup (matchkey <$> row_options lower row) →
  row_options lower row ≠ [] →
  process_row lower shuffle row = Returns (Some card, None) →
  ∃ letters texts,
    flag_correct 0 (row_indexed lower shuffle row) (row_key_set lower row)
    = Returns (letters, texts)
    ∧ card.2 = build_back_html letters texts
    ∧ length letters = size (row_key_set lower row)
    ∧ NoDup (matchkey <$> texts).
Proof.
  intros Hperm Hnodup Hopts Hcard.
  pose proof (row_displayed_length lower shuffle Hperm row) as Hlen.
  pose proof (row_displayed_Permutation lower shuffle Hperm row) as Hdisp.
  destruct (process_fields_card_inv shuffle _ _ Hopts Hcard)
    as (Hq & Hmc & Hparts & Hfound).
  destruct (process_row_accept lower shuffle Hperm row Hq Hmc Hparts Hfound)
    as (Hflag & Hfl & Hrow).
  rewrite Hrow in Hcard. injection Hcard as <-.
  eexists _, _. split; [exact Hflag|]. split; [done|].
  set (keep := λ t : pystr, matchkey t ∈ row_key_set lower row).
  assert (NoDup (matchkey <$> filter keep (row_options lower row))) as Hkeys.
  { eapply sublist_NoDup; [exact Hnodup|].
    apply fmap_sublist, sublist_filter. }
  assert ((flagged (row_key_set lower row)
             (row_displayed lower shuffle row)).*2
          ≡ₚ filter keep (row_options lower row)) as Htexts.
  { rewrite flagged_texts by lia. by rewrite Hdisp. }
  split; [|by rewrite Htexts].
  rewrite length_fmap, <- (length_fmap snd), Htexts.
  rewrite <- (length_fmap matchkey), <- (size_list_to_set (C:=gset pystr))
    by done.
  f_equal. apply set_eq. intros k.
  rewrite elem_of_list_to_set, list_elem_of_fmap. split.
  - intros (t & -> & [Hk _]%list_elem_of_filter). done.
  - intros Hk. unfold row_key_set in Hk.
    pose proof Hk as Hk'. apply elem_of_list_to_set in Hk'.
    apply list_elem_of_fmap in Hk' as (p & -> & Hp).
    apply (proj1 (Forall_forall _ _) Hfound) in Hp.
    apply list_elem_of_fmap in Hp as (opt & Hkey & Hopt).
    exists opt. split; [done|].
    apply list_elem_of_filter. split; [|done].
    unfold keep. by rewrite <- Hkey.
Qed.

(** "2+2?" with the options 3, 4, 5, 6 and the answer 4: one letter. *)
Lemma correct_letters_count_witness :
  ∃ card,
    process_row lower_ascii (random_shuffle randbelow_example) row_sum
    = Returns (Some card, None)
    ∧ ∃ letters texts,
        flag_correct 0
          (row_indexed lower_ascii (random_shuffle randbelow_example) row_sum)
          (row_key_set lower_ascii row_sum)
        = Returns (letters, texts)
        ∧ card.2 = build_back_html letters texts
        ∧ length letters = size (row_key_set lower_ascii row_sum)
        ∧ NoDup (matchkey <$> texts).
Proof.
  eexists. split.
  - vm_compute. reflexivity.
  - apply (correct_letters_count lower_ascii
             (random_shuffle randbelow_example) row_sum).
    + apply random_shuffle_Permutation.
    + by_evaluation.
    + by_evaluation.
    + vm_compute. reflexivity.
Defined.

(** ** The correct-answer field as a set of keys *)

Lemma key_set_empty (parts : list pystr) :
  (list_to_set (matchkey <$> parts) : gset pystr) = ∅ ↔ parts = [].
Proof.
  split; [|by intros ->].
  destruct parts as [|p ps]; [done|]. intros Hempty.
  assert (matchkey p ∈ (list_to_set (matchkey <$> p :: ps) : gset pystr))
    as Hin.
  { apply elem_of_list_to_set. rewrite fmap_cons. by left. }
  rewrite Hempty in Hin. by apply not_elem_of_empty in Hin.
Qed.

Lemma unmapped_key_set (options parts : list pystr) :
  Exists (λ k, option_key_to_text options !! k = None) (matchkey <$> parts)
  ↔ ∃ k, k ∈ (list_to_set (matchkey <$> parts) : gset pystr)
         ∧ option_key_to_text options !! k = None.
Proof.
  rewrite Exists_exists. by setoid_rewrite elem_of_list_to_set.
Qed.

Lemma process_fields_key_set shuffle (cf cf' : CanonicalFields) :
  question cf = question cf' →
  nonempty_options cf = nonempty_options cf' →
  nonempty_options cf ≠ [] →
  (list_to_set (matchkey <$> correct_parts (correctRaw cf)) : gset pystr)
  = list_to_set (matchkey <$> correct_parts (correctRaw cf')) →
  process_fields shuffle cf = process_fields shuffle cf'.
Proof.
  intros Hq Hopts Hne Hkeys.
  assert (correct_parts (correctRaw cf) = []
          ↔ correct_parts (correctRaw cf') = []) as Hnil.
  { by rewrite <- !key_set_empty, Hkeys. }
  assert (∀ c : CanonicalFields,
            correctRaw c = [] → correct_parts (correctRaw c) = []) as Hraw.
  { by intros c ->. }
  unfold process_fields. rewrite <- Hq, <- Hopts.
  destruct (decide (question cf = [])); [done|].
  destruct (decide (length (nonempty_options cf) = 0%nat)) as [Hz|_].
  { by apply nil_length_inv in Hz. }
  destruct (decide (length (nonempty_options cf) < 2)%nat); [done|].
  destruct (decide (correct_parts (correctRaw cf) = [])) as [Hp|Hp].
  - pose proof (proj1 Hnil Hp) as Hp'.
    destruct (decide (correctRaw cf = [])), (decide (correctRaw cf' = [])),
      (decide (correct_parts (correctRaw cf') = [])); done.
  - assert (correct_parts (correctRaw cf') ≠ []) as Hp' by tauto.
    destruct (decide (correctRaw cf = [])) as [?%Hraw|_]; [done|].
    destruct (decide (correctRaw cf' = [])) as [?%Hraw|_]; [done|].
    destruct (decide (correct_parts (correctRaw cf') = [])); [done|].
    rewrite <- Hkeys.
    destruct (decide (Exists _ (matchkey <$> correct_parts (correctRaw cf))))
      as [Hex|Hno];
      destruct (decide (Exists _ (matchkey <$> correct_parts (correctRaw cf'))))
      as [Hex'|Hno']; try done.
    + destruct Hno'. apply unmapped_key_set. rewrite <- Hkeys.
      by apply unmapped_key_set.
    + destruct Hno. apply unmapped_key_set. rewrite Hkeys.
      by apply unmapped_key_set.
Qed.

(** A multiple-choice row is read through the set of matching keys of its
    correct-answer parts: rows with the same question, the same non-empty
    options in the same order and the same set of part keys get the same
    result, whatever the order, repetition, padding or empty pieces of the
    correct-answer field, and whichever fields the options stand in. *)
Theorem correct_answer_by_key_set
    (lower : pystr → pystr) (shuffle : list (nat * pystr) → list (nat * pystr))
    (row row' : Row) :
  question (canonical_fields lower row)
  = question (canonical_fields lower row') →
  row_options lower row = row_options lower row' →
  row_options lower row ≠ [] →
  row_key_set lower row = row_key_set lower row' →
  process_row lower shuffle row = process_row lower shuffle row'.
Proof. intros. by apply process_fields_key_set. Qed.

Lemma correct_answer_by_key_set_witness :
  process_row lower_ascii (random_shuffle randbelow_example) row_sum
  = process_row lower_ascii (random_shuffle randbelow_example)
      row_sum_repeated.
Proof.
  apply (correct_answer_by_key_set lower_ascii
           (random_shuffle randbelow_example) row_sum row_sum_repeated).
  - vm_compute. reflexivity.
  - vm_compute. reflexivity.
  - by_evaluation.
  - by_evaluation.
Defined.

(** ** Header variants *)

Section HeaderVariants.

Variable lower : pystr → pystr.

Implicit Types (row : Row) (f : pystr → pystr) (h k : pystr).

Lemma headers_rename f row : headers (rename f row) = f <$> headers row.
Proof.
  induction row as [|[[h|] v] row IH]; [done| |].
  - change (headers (rename f ((Some h, v) :: row)))
      with (f h :: headers (rename f row)).
    by rewrite IH.
  - exact IH.
Qed.

Lemma norm_map_in_headers row k h :
  norm_map lower row !! k = Some h → h ∈ headers row ∧ normkey lower h = k.
Proof.
  rewrite norm_map_lookup. intros Hl%last_Some_elem_of.
  apply list_elem_of_filter in Hl. tauto.
Qed.

Lemma header_in_keys row h : h ∈ headers row → Some h ∈ keys row.
Proof.
  unfold headers. intros (x & Hx & Hid)%list_elem_of_omap.
  simpl in Hid. by subst x.
Qed.

Lemma norm_map_rename f row k :
  Forall (λ h, normkey lower (f h) = normkey lower h) (headers row) →
  norm_map lower (rename f row) !! k = f <$> norm_map lower row !! k.
Proof.
  intros Hf. rewrite !norm_map_lookup, headers_rename, <- fmap_last.
  f_equal. induction Hf as [|h hs Hh _ IH]; [done|].
  rewrite fmap_cons, !filter_cons, Hh.
  destruct (decide (normkey lower h = k)); by rewrite IH.
Qed.

Lemma get_rename f row h :
  NoDup (keys (rename f row)) → Some h ∈ keys row →
  get (rename f row) (Some (f h)) = get row (Some h).
Proof.
  unfold keys. induction row as [|[k v] row IH]; intros Hnd Hin.
  { by apply elem_of_nil in Hin. }
  cbn in Hnd. apply NoDup_cons in Hnd as [Hhead Hnd]. cbn.
  destruct (decide (k = Some h)) as [->|Hk].
  { simpl. by rewrite decide_True. }
  cbn in Hin. apply elem_of_cons in Hin as [Hin|Hin]; [congruence|].
  destruct (decide (f <$> k = Some (f h))) as [Heq|_]; [|by apply IH].
  destruct Hhead. rewrite Heq.
  apply list_elem_of_fmap. apply list_elem_of_fmap in Hin as ([k' v'] & Hk' & Hin).
  simpl in Hk'. subst k'. exists (Some (f h), v'). split; [done|].
  unfold rename. apply list_elem_of_fmap. by exists (Some h, v').
Qed.

Lemma pick_rename f row (wanted : list pystr) :
  Forall (λ h, normkey lower (f h) = normkey lower h) (headers row) →
  NoDup (keys (rename f row)) →
  pick lower (rename f row) wanted = pick lower row wanted.
Proof.
  intros Hf Hnd. induction wanted as [|want rest IH]; [done|].
  cbn [pick]. rewrite norm_map_rename by done.
  destruct (norm_map lower row !! normkey lower want) as [actual|] eqn:Hact;
    simpl; [|done].
  apply norm_map_in_headers in Hact as [Hin _].
  by apply get_rename, header_in_keys.
Qed.

(** The value under the last header with the normalized form of the
    candidate, when it is the only candidate. *)
Lemma pick_single row want :
  pick lower row [want]
  = actual ← last (matching_headers lower row want); get row (Some actual).
Proof.
  cbn [pick]. rewrite norm_map_lookup.
  fold (matching_headers lower row want).
  by destruct (last (matching_headers lower row want)).
Qed.

End HeaderVariants.

(** Headers are read through their normalized form only: rewriting the
    headers of a row into variants with the same normalized form (the
    rewritten headers still pairwise distinct) changes neither what the
    field resolver returns nor the result of the row. *)
Theorem header_variants_same_result
    (lower : pystr → pystr) (shuffle : list (nat * pystr) → list (nat * pystr))
    (f : pystr → pystr) (row : Row) :
  Forall (λ h, normkey lower (f h) = normkey lower h) (headers row) →
  NoDup (keys (rename f row)) →
  (∀ wanted, pick lower (rename f row) wanted = pick lower row wanted)
  ∧ canonical_fields lower (rename f row) = canonical_fields lower row
  ∧ process_row lower shuffle (rename f row) = process_row lower shuffle row.
Proof.
  intros Hf Hnd.
  assert (canonical_fields lower (rename f row) = canonical_fields lower row)
    as Hcf.
  { unfold canonical_fields. by rewrite !pick_rename. }
  split; [intros wanted; by apply pick_rename|]. split; [done|].
  unfold process_row. by rewrite Hcf.
Qed.

Lemma header_variants_same_result_witness :
  (∀ wanted,
     pick lower_ascii (rename header_variant row_sum) wanted
     = pick lower_ascii row_sum wanted)
  ∧ canonical_fields lower_ascii (rename header_variant row_sum)
    = canonical_fields lower_ascii row_sum
  ∧ process_row lower_ascii (random_shuffle randbelow_example)
      (rename header_variant row_sum)
    = process_row lower_ascii (random_shuffle randbelow_example) row_sum.
Proof.
  apply (header_variants_same_result lower_ascii
           (random_shuffle randbelow_example) header_variant row_sum).
  - by_evaluation.
  - by_evaluation.
Defined.

(** The question of a row is the trimmed cell under its "Frage" header
    when it has one, even an empty cell; only without such a header is the
    "Question" header read, and without either the question is empty.  Of
    several headers with one normalized form the last one counts. *)
Theorem question_candidates (lower : pystr → pystr) (row : Row) :
  question (canonical_fields lower row)
  = match last (matching_headers lower row (lit "Frage")) with
    | Some h => normalize (get row (Some h))
    | None =>
        match last (matching_headers lower row (lit "Question")) with
        | Some h => normalize (get row (Some h))
        | None => []
        end
    end.
Proof.
  simpl. rewrite !norm_map_lookup.
  fold (matching_headers lower row (lit "Frage")).
  fold (matching_headers lower row (lit "Question")).
  by destruct (last (matching_headers lower row (lit "Frage"))),
    (last (matching_headers lower row (lit "Question"))).
Qed.

(** ** Folders *)

Section FolderLoops.

Variable lower : pystr → pystr.
Variable shuffles : nat → list (nat * pystr) → list (nat * pystr).
Hypothesis shuffles_perm : ∀ n indexed, shuffles n indexed ≡ₚ indexed.

Implicit Types (st : Tally) (rows : list Row) (name : pystr)
  (files : list (pystr * list Row)).

(** The loop over the rows of one file: it returns, counts every row, and
    appends for every row either its card or its skip record. *)
Lemma process_rows_spec calls name idx rows st :
  ∃ st' new_cards new_skips,
    process_rows lower shuffles calls name idx rows st = Returns st'
    ∧ rows_seen st' = (rows_seen st + length rows)%nat
    ∧ files_seen st' = files_seen st
    ∧ cards st' = cards st ++ new_cards
    ∧ skipped st' = skipped st ++ new_skips
    ∧ (length new_cards + length new_skips = length rows)%nat
    ∧ Forall (λ c, ∃ i row,
                rows !! i = Some row
                ∧ row_card lower shuffles (calls + rows_seen st + i) row c)
        new_cards
    ∧ Forall (λ r, ∃ i row,
                rows !! i = Some row
                ∧ row_skip lower shuffles name (idx + i)
                    (calls + rows_seen st + i) row r)
        new_skips
    ∧ ∀ i row, rows !! i = Some row →
        (∃ c, c ∈ new_cards
              ∧ row_card lower shuffles (calls + rows_seen st + i) row c)
        ∨ (∃ r, r ∈ new_skips
                ∧ row_skip lower shuffles name (idx + i)
                    (calls + rows_seen st + i) row r).
Proof.
  revert idx st. induction rows as [|row rest IH]; intros idx st.
  { exists st, [], []. simpl. rewrite !(right_id_L [] (++)).
    repeat split; try done; try lia. }
  cbn [process_rows].
  assert (∀ i, (calls + S (rows_seen st) + i = calls + rows_seen st + S i)%nat)
    as Hcall by lia.
  assert (∀ i, (S idx + i = idx + S i)%nat) as Hidx by lia.
  destruct (process_row_two_ways lower (shuffles (calls + rows_seen st)) row
              (shuffles_perm _)) as [[c Hc]|[rs Hrs]].
  - rewrite Hc. cbn [mbind exc_bind].
    destruct (IH (S idx)
                {| cards := cards st ++ [c]; skipped := skipped st;
                   rows_seen := S (rows_seen st);
                   files_seen := files_seen st |})
      as (st' & ncs & nss & Hst' & Hrows & Hfiles & Hcards & Hskips & Hlen
          & Hsound_c & Hsound_s & Hcomplete).
    cbn [cards skipped rows_seen files_seen] in *.
    exists st', (c :: ncs), nss. split; [done|].
    split; [simpl; lia|]. split; [done|].
    split; [by rewrite Hcards, <- (assoc_L (++))|]. split; [done|].
    split; [simpl; lia|].
    split; [|split].
    + constructor.
      * exists 0%nat, row. split; [done|].
        unfold row_card. by rewrite Nat.add_0_r.
      * eapply Forall_impl; [exact Hsound_c|].
        intros c' (i & row' & Hi & Hcard). exists (S i), row'.
        split; [done|]. by rewrite <- Hcall.
    + eapply Forall_impl; [exact Hsound_s|].
      intros r (i & row' & Hi & Hskip). exists (S i), row'.
      split; [done|]. by rewrite <- Hcall, <- Hidx.
    + intros [|i] row' Hi.
      * injection Hi as <-. left. exists c. split; [by left|].
        unfold row_card. by rewrite Nat.add_0_r.
      * destruct (Hcomplete i row' Hi) as [(c' & Hin & Hcard)|(r & Hin & Hskip)].
        -- left. exists c'. split; [by right|]. by rewrite <- Hcall.
        -- right. exists r. split; [done|]. by rewrite <- Hcall, <- Hidx.
  - rewrite Hrs. cbn [mbind exc_bind].
    set (rec := {| skip_file := name; skip_row := idx; skip_reason := Some rs;
                   skip_question :=
                     normalize (pick lower row [lit "Frage"; lit "Question"]) |}).
    assert (row_skip lower shuffles name (idx + 0)
              (calls + rows_seen st + 0) row rec) as Hrec.
    { exists rs. rewrite !Nat.add_0_r. done. }
    destruct (IH (S idx)
                {| cards := cards st; skipped := skipped st ++ [rec];
                   rows_seen := S (rows_seen st);
                   files_seen := files_seen st |})
      as (st' & ncs & nss & Hst' & Hrows & Hfiles & Hcards & Hskips & Hlen
          & Hsound_c & Hsound_s & Hcomplete).
    cbn [cards skipped rows_seen files_seen] in *.
    exists st', ncs, (rec :: nss). split; [done|].
    split; [simpl; lia|]. split; [done|]. split; [done|].
    split; [by rewrite Hskips, <- (assoc_L (++))|].
    split; [simpl; lia|].
    split; [|split].
    + eapply Forall_impl; [exact Hsound_c|].
      intros c' (i & row' & Hi & Hcard). exists (S i), row'.
      split; [done|]. by rewrite <- Hcall.
    + constructor.
      * by exists 0%nat, row.
      * eapply Forall_impl; [exact Hsound_s|].
        intros r (i & row' & Hi & Hskip). exists (S i), row'.
        split; [done|]. by rewrite <- Hcall, <- Hidx.
    + intros [|i] row' Hi.
      * injection Hi as <-. right. exists rec. split; [by left|done].
      * destruct (Hcomplete i row' Hi) as [(c' & Hin & Hcard)|(r & Hin & Hskip)].
        -- left. exists c'. split; [done|]. by rewrite <- Hcall.
        -- right. exists r. split; [by right|]. by rewrite <- Hcall, <- Hidx.
Qed.

End FolderLoops.

Lemma processed_files_cons name rows (files : list (pystr * list Row)) :
  processed_files ((name, rows) :: files)
  = if excluded name then processed_files files
    else (name, rows) :: processed_files files.
Proof.
  unfold processed_files. rewrite filter_cons. simpl.
  by destruct (excluded name).
Qed.

Lemma row_count_cons name rows (files : list (pystr * list Row)) :
  row_count ((name, rows) :: files)
  = if excluded name then row_count files
    else (length rows + row_count files)%nat.
Proof.
  unfold row_count. rewrite processed_files_cons.
  by destruct (excluded name).
Qed.

Lemma folder_row_cons file (files : list (pystr * list Row)) name i row :
  folder_row (file :: files) name i row
  ↔ (excluded name = false ∧ ∃ rows, file = (name, rows) ∧ rows !! i = Some row)
    ∨ folder_row files name i row.
Proof.
  unfold folder_row. split.
  - intros (rows & [<-|Hin]%elem_of_cons & Hex & Hi).
    + left. split; [done|]. by exists rows.
    + right. by exists rows.
  - intros [(Hex & rows & -> & Hi)|(rows & Hin & Hex & Hi)]; exists rows.
    + split; [by left|done].
    + split; [by right|done].
Qed.

Section FolderSpec.

Variable lower : pystr → pystr.
Variable shuffles : nat → list (nat * pystr) → list (nat * pystr).
Hypothesis shuffles_perm : ∀ n indexed, shuffles n indexed ≡ₚ indexed.

Implicit Types (st : Tally) (files : list (pystr * list Row)).

Lemma process_files_spec calls files st :
  ∃ st' new_cards new_skips,
    process_files lower shuffles calls files st = Returns st'
    ∧ rows_seen st' = (rows_seen st + row_count files)%nat
    ∧ files_seen st' = (files_seen st + length (processed_files files))%nat
    ∧ cards st' = cards st ++ new_cards
    ∧ skipped st' = skipped st ++ new_skips
    ∧ (length new_cards + length new_skips = row_count files)%nat
    ∧ Forall (λ c, ∃ name i row n,
                folder_row files name i row
                ∧ row_card lower shuffles n row c) new_cards
    ∧ Forall (λ r, ∃ name i row n,
                folder_row files name i row
                ∧ row_skip lower shuffles name (2 + i) n row r) new_skips
    ∧ ∀ name i row, folder_row files name i row →
        ∃ n, (∃ c, c ∈ new_cards ∧ row_card lower shuffles n row c)
             ∨ (∃ r, r ∈ new_skips
                     ∧ row_skip lower shuffles name (2 + i) n row r).
Proof.
  revert st. induction files as [|[name rows] rest IH]; intros st.
  { exists st, [], []. simpl. rewrite !(right_id_L [] (++)).
    repeat split; try done; try (unfold row_count; simpl; lia).
    intros name i row (rows & Hin%elem_of_nil & _). done. }
  cbn [process_files]. rewrite row_count_cons, processed_files_cons.
  destruct (excluded name) eqn:Hex.
  - destruct (IH st)
      as (st' & ncs & nss & Hst' & Hrows & Hfiles & Hcards & Hskips & Hlen
          & Hsound_c & Hsound_s & Hcomplete).
    exists st', ncs, nss. do 6 (split; [done|]). split; [|split].
    + eapply Forall_impl; [exact Hsound_c|].
      intros c (name' & i & row & n & Hrow & Hcard).
      exists name', i, row, n. split; [|done].
      apply folder_row_cons. by right.
    + eapply Forall_impl; [exact Hsound_s|].
      intros r (name' & i & row & n & Hrow & Hskip).
      exists name', i, row, n. split; [|done].
      apply folder_row_cons. by right.
    + intros name' i row [(Hex' & rows' & [= <- <-] & _)|Hrow]%folder_row_cons.
      * congruence.
      * by apply Hcomplete.
  - destruct (process_rows_spec lower shuffles shuffles_perm calls name 2 rows
                {| cards := cards st; skipped := skipped st;
                   rows_seen := rows_seen st;
                   files_seen := S (files_seen st) |})
      as (st1 & ncs1 & nss1 & Hst1 & Hrows1 & Hfiles1 & Hcards1 & Hskips1
          & Hlen1 & Hsound_c1 & Hsound_s1 & Hcomplete1).
    cbn [cards skipped rows_seen files_seen] in *.
    rewrite Hst1. cbn [mbind exc_bind].
    destruct (IH st1)
      as (st' & ncs & nss & Hst' & Hrows & Hfiles & Hcards & Hskips & Hlen
          & Hsound_c & Hsound_s & Hcomplete).
    exists st', (ncs1 ++ ncs), (nss1 ++ nss). split; [done|].
    split; [lia|]. split; [simpl; lia|].
    split; [by rewrite Hcards, Hcards1, <- (assoc_L (++))|].
    split; [by rewrite Hskips, Hskips1, <- (assoc_L (++))|].
    split; [rewrite !length_app; lia|].
    split; [|split].
    + apply Forall_app. split.
      * eapply Forall_impl; [exact Hsound_c1|].
        intros c (i & row & Hi & Hcard). exists name, i, row. eexists.
        split; [|exact Hcard]. apply folder_row_cons. left.
        split; [done|]. by exists rows.
      * eapply Forall_impl; [exact Hsound_c|].
        intros c (name' & i & row & n & Hrow & Hcard).
        exists name', i, row, n. split; [|done].
        apply folder_row_cons. by right.
    + apply Forall_app. split.
      * eapply Forall_impl; [exact Hsound_s1|].
        intros r (i & row & Hi & Hskip). exists name, i, row. eexists.
        split; [|exact Hskip]. apply folder_row_cons. left.
        split; [done|]. by exists rows.
      * eapply Forall_impl; [exact Hsound_s|].
        intros r (name' & i & row & n & Hrow & Hskip).
        exists name', i, row, n. split; [|done].
        apply folder_row_cons. by right.
    + intros name' i row [(_ & rows' & [= <- <-] & Hi)|Hrow]%folder_row_cons.
      * destruct (Hcomplete1 i row Hi) as [(c & Hin & Hcard)|(r & Hin & Hskip)].
        -- eexists. left. exists c. split; [|exact Hcard].
           apply elem_of_app. by left.
        -- eexists. right. exists r. split; [|exact Hskip].
           apply elem_of_app. by left.
      * destruct (Hcomplete name' i row Hrow)
          as [n [(c & Hin & Hcard)|(r & Hin & Hskip)]].
        -- exists n. left. exists c. split; [|done]. apply elem_of_app. by right.
        -- exists n. right. exists r. split; [|done]. apply elem_of_app. by right.
Qed.

(** What [process_folder] returns and writes. *)
Lemma process_folder_spec calls files :
  ∃ res,
    process_folder lower shuffles calls files = Returns res
    ∧ counts res
      = (row_count files, length (out_rows res),
         length (default [] (skip_rows res)))
    ∧ (length (out_rows res) + length (default [] (skip_rows res))
       = row_count files)%nat
    ∧ (skip_rows res = None ↔ length (out_rows res) = row_count files)
    ∧ skip_rows res ≠ Some []
    ∧ Forall (λ c, ∃ name i row n,
                folder_row files name i row
                ∧ row_card lower shuffles n row c) (out_rows res)
    ∧ Forall (λ r, ∃ name i row n,
                folder_row files name i row
                ∧ row_skip lower shuffles name (2 + i) n row r)
        (default [] (skip_rows res))
    ∧ ∀ name i row, folder_row files name i row →
        ∃ n, (∃ c, c ∈ out_rows res ∧ row_card lower shuffles n row c)
             ∨ (∃ r, r ∈ default [] (skip_rows res)
                     ∧ row_skip lower shuffles name (2 + i) n row r).
Proof.
  unfold process_folder.
  destruct (process_files_spec calls files
              {| cards := []; skipped := []; rows_seen := 0;
                 files_seen := 0 |})
    as (st' & ncs & nss & Hst' & Hrows & Hfiles & Hcards & Hskips & Hlen
        & Hsound_c & Hsound_s & Hcomplete).
  cbn [cards skipped rows_seen files_seen] in *. simpl in Hcards, Hskips.
  rewrite Hst'. cbn [mbind exc_bind]. eexists. split; [done|].
  cbn [counts out_rows skip_rows]. rewrite Hcards, Hskips.
  assert (default [] (if nss is [] then None else Some nss) = nss) as Hdef.
  { by destruct nss. }
  rewrite Hdef. split; [by rewrite Hrows|]. split; [done|].
  split; [|split; [by destruct nss|done]].
  destruct nss; simpl in *; split; intros; try done; lia.
Qed.

End FolderSpec.

(** The files [process_folder] passes over play no part in what it does. *)
Lemma process_files_processed
    (lower : pystr → pystr)
    (shuffles : nat → list (nat * pystr) → list (nat * pystr))
    (calls : nat) (files : list (pystr * list Row)) (st : Tally) :
  process_files lower shuffles calls files st
  = process_files lower shuffles calls (processed_files files) st.
Proof.
  revert st. induction files as [|[name rows] rest IH]; intros st; [done|].
  rewrite processed_files_cons. cbn [process_files].
  destruct (excluded name) eqn:Hex; [done|].
  cbn [process_files]. rewrite Hex.
  destruct (process_rows lower shuffles calls name 2 rows _); [|done].
  cbn [mbind exc_bind]. apply IH.
Qed.

(** The loop of [main]: it returns, and adds to the totals the rows of the
    folders, every one of them counted as a card or as a skipped row. *)
Lemma main_from_spec
    (lower : pystr → pystr)
    (shuffles : nat → list (nat * pystr) → list (nat * pystr))
    (listing : pystr → list (pystr * list Row)) (folders : list pystr)
    (total_rows total_cards total_skipped : nat) :
  (∀ n indexed, shuffles n indexed ≡ₚ indexed) →
  ∃ r c s,
    main_from lower shuffles listing folders
      (total_rows, total_cards, total_skipped)
    = Returns (total_rows + r, total_cards + c, total_skipped + s)%nat
    ∧ r = sum_list ((λ folder, row_count (listing folder)) <$> folders)
    ∧ r = (c + s)%nat.
Proof.
  intros Hperm. revert total_rows total_cards total_skipped.
  induction folders as [|folder rest IH];
    intros total_rows total_cards total_skipped.
  { exists 0%nat, 0%nat, 0%nat. simpl. by rewrite !Nat.add_0_r. }
  cbn [main_from].
  destruct (process_folder_spec lower shuffles Hperm total_rows
              (listing folder))
    as (res & -> & Hcounts & Hlen & _).
  cbn [mbind exc_bind]. rewrite Hcounts.
  destruct (IH (total_rows + row_count (listing folder))%nat
               (total_cards + length (out_rows res))%nat
               (total_skipped + length (default [] (skip_rows res)))%nat)
    as (r & c & s & -> & -> & Hsum).
  exists (row_count (listing folder)
          + sum_list ((λ folder, row_count (listing folder)) <$> rest))%nat,
    (length (out_rows res) + c)%nat,
    (length (default [] (skip_rows res)) + s)%nat.
  split; [f_equal; f_equal; [f_equal|]; lia|]. split; [done|]. lia.
Qed.

(** [process_folder] returns for every listing, whatever the rows hold.
    The triple it returns is the number of rows of the processed files,
    the number of rows of the import file and the number of rows of the
    skip file; every row is counted once, as a card or as a skipped row.
    The skip file is written exactly when a row was skipped, so never
    without a record. *)
Theorem folder_counts
    (lower : pystr → pystr)
    (shuffles : nat → list (nat * pystr) → list (nat * pystr))
    (calls : nat) (files : list (pystr * list Row)) :
  (∀ n indexed, shuffles n indexed ≡ₚ indexed) →
  ∃ res,
    process_folder lower shuffles calls files = Returns res
    ∧ counts res
      = (row_count files, length (out_rows res),
         length (default [] (skip_rows res)))
    ∧ (length (out_rows res) + length (default [] (skip_rows res))
       = row_count files)%nat
    ∧ (skip_rows res = None ↔ length (out_rows res) = row_count files)
    ∧ skip_rows res ≠ Some [].
Proof.
  intros Hperm.
  destruct (process_folder_spec lower shuffles Hperm calls files)
    as (res & Hres & Hcounts & Hlen & Hnone & Hsome & _).
  by exists res.
Qed.

Lemma folder_counts_witness :
  ∃ res,
    process_folder lower_ascii shuffles_example 0 folder_example = Returns res
    ∧ counts res
      = (row_count folder_example, length (out_rows res),
         length (default [] (skip_rows res)))
    ∧ (length (out_rows res) + length (default [] (skip_rows res))
       = row_count folder_example)%nat
    ∧ (skip_rows res = None
       ↔ length (out_rows res) = row_count folder_example)
    ∧ skip_rows res ≠ Some [].
Proof.
  apply (folder_counts lower_ascii shuffles_example 0%nat folder_example).
  intros n indexed. apply random_shuffle_Permutation.
Defined.

(** Nothing is written that no row stands for: every row of the import
    file is the card [process_row] returned for a row of a processed file,
    and every record of the skip file carries the name of the file of a
    rejected row, its line number (the header being line 1, the first row
    line 2), the reason [process_row] returned and the trimmed question. *)
Theorem folder_outputs_traced
    (lower : pystr → pystr)
    (shuffles : nat → list (nat * pystr) → list (nat * pystr))
    (calls : nat) (files : list (pystr * list Row)) :
  (∀ n indexed, shuffles n indexed ≡ₚ indexed) →
  ∃ res,
    process_folder lower shuffles calls files = Returns res
    ∧ Forall (λ c, ∃ name i row n,
                folder_row files name i row
                ∧ row_card lower shuffles n row c) (out_rows res)
    ∧ Forall (λ r, ∃ name i row n,
                folder_row files name i row
                ∧ row_skip lower shuffles name (2 + i) n row r)
        (default [] (skip_rows res)).
Proof.
  intros Hperm.
  destruct (process_folder_spec lower shuffles Hperm calls files)
    as (res & Hres & _ & _ & _ & _ & Hcards & Hskips & _).
  by exists res.
Qed.

Lemma folder_outputs_traced_witness :
  ∃ res,
    process_folder lower_ascii shuffles_example 0 folder_example = Returns res
    ∧ Forall (λ c, ∃ name i row n,
                folder_row folder_example name i row
                ∧ row_card lower_ascii shuffles_example n row c)
        (out_rows res)
    ∧ Forall (λ r, ∃ name i row n,
                folder_row folder_example name i row
                ∧ row_skip lower_ascii shuffles_example name (2 + i) n row r)
        (default [] (skip_rows res)).
Proof.
  apply (folder_outputs_traced lower_ascii shuffles_example 0%nat
           folder_example).
  intros n indexed. apply random_shuffle_Permutation.
Defined.

(** No row is lost: every row of every processed file has its card in the
    import file or its record, with its file name and line number, in the
    skip file. *)
Theorem folder_rows_accounted
    (lower : pystr → pystr)
    (shuffles : nat → list (nat * pystr) → list (nat * pystr))
    (calls : nat) (files : list (pystr * list Row)) :
  (∀ n indexed, shuffles n indexed ≡ₚ indexed) →
  ∃ res,
    process_folder lower shuffles calls files = Returns res
    ∧ ∀ name i row, folder_row files name i row →
        ∃ n, (∃ c, c ∈ out_rows res ∧ row_card lower shuffles n row c)
             ∨ (∃ r skips, skip_rows res = Some skips ∧ r ∈ skips
                     ∧ row_skip lower shuffles name (2 + i) n row r).
Proof.
  intros Hperm.
  destruct (process_folder_spec lower shuffles Hperm calls files)
    as (res & Hres & _ & _ & _ & _ & _ & _ & Hcomplete).
  exists res. split; [done|]. intros name i row Hrow.
  destruct (Hcomplete name i row Hrow) as [n [Hcard|(r & Hin & Hskip)]];
    exists n; [by left|right].
  destruct (skip_rows res) as [skips|]; simpl in Hin.
  - by exists r, skips.
  - by apply elem_of_nil in Hin.
Qed.

Lemma folder_rows_accounted_witness :
  ∃ res,
    process_folder lower_ascii shuffles_example 0 folder_example = Returns res
    ∧ ∀ name i row, folder_row folder_example name i row →
        ∃ n, (∃ c, c ∈ out_rows res
                   ∧ row_card lower_ascii shuffles_example n row c)
             ∨ (∃ r skips, skip_rows res = Some skips ∧ r ∈ skips
                     ∧ row_skip lower_ascii shuffles_example name (2 + i) n
                         row r).
Proof.
  apply (folder_rows_accounted lower_ascii shuffles_example 0%nat
           folder_example).
  intros n indexed. apply random_shuffle_Permutation.
Defined.

(** Files whose name starts with MASTER__, SKIPPED__ or ANKI-IMPORT__ are
    not read: [process_folder] does on a listing what it does on the
    listing without them.  The two files it writes in a folder have such
    names, so what a run leaves in a folder is no input of the next run. *)
Theorem excluded_files_ignored
    (lower : pystr → pystr)
    (shuffles : nat → list (nat * pystr) → list (nat * pystr))
    (calls : nat) (files : list (pystr * list Row)) :
  process_folder lower shuffles calls files
  = process_folder lower shuffles calls (processed_files files)
  ∧ Forall (λ f, excluded f.1 = false) (processed_files files)
  ∧ ∀ folder_name,
      excluded (out_file_name folder_name) = true
      ∧ excluded (skip_file_name folder_name) = true.
Proof.
  split; [|split].
  - unfold process_folder. by rewrite process_files_processed.
  - unfold processed_files. apply Forall_forall.
    by intros f [? _]%list_elem_of_filter.
  - intros folder_name. split.
    + unfold excluded, startswith. cbn [existsb].
      rewrite !orb_true_iff. right. right. left.
      by apply bool_decide_eq_true_2.
    + unfold excluded, startswith. cbn [existsb].
      rewrite !orb_true_iff. right. left.
      by apply bool_decide_eq_true_2.
Qed.

(** [main] returns for every content of the four target folders.  The
    total of rows it prints is the number of rows of the processed files
    of the four folders, and it is the sum of the two other totals: cards
    written and rows skipped. *)
Theorem main_totals
    (lower : pystr → pystr)
    (shuffles : nat → list (nat * pystr) → list (nat * pystr))
    (listing : pystr → list (pystr * list Row)) :
  (∀ n indexed, shuffles n indexed ≡ₚ indexed) →
  ∃ total_rows total_cards total_skipped,
    main lower shuffles listing
    = Returns (total_rows, total_cards, total_skipped)
    ∧ total_rows
      = sum_list ((λ folder, row_count (listing folder)) <$> TARGET_FOLDERS)
    ∧ total_rows = (total_cards + total_skipped)%nat.
Proof.
  intros Hperm. unfold main.
  destruct (main_from_spec lower shuffles listing TARGET_FOLDERS 0 0 0 Hperm)
    as (r & c & s & Hmain & Hr & Hsum).
  by exists r, c, s.
Qed.

Lemma main_totals_witness :
  ∃ total_rows total_cards total_skipped,
    main lower_ascii shuffles_example listing_example
    = Returns (total_rows, total_cards, total_skipped)
    ∧ total_rows
      = sum_list ((λ folder, row_count (listing_example folder))
                    <$> TARGET_FOLDERS)
    ∧ total_rows = (total_cards + total_skipped)%nat.
Proof.
  apply (main_totals lower_ascii shuffles_example listing_example).
  intros n indexed. apply random_shuffle_Permutation.
Defined.

(** ** The order of the output *)

Lemma numbered_rows_cons name rows (files : list (pystr * list Row)) :
  numbered_rows ((name, rows) :: files)
  = if excluded name then numbered_rows files
    else imap (λ i row, (name, (2 + i)%nat, row)) rows ++ numbered_rows files.
Proof.
  unfold numbered_rows. rewrite processed_files_cons.
  by destruct (excluded name).
Qed.

Lemma numbered_rows_length (files : list (pystr * list Row)) :
  length (numbered_rows files) = row_count files.
Proof.
  induction files as [|[name rows] rest IH]; [done|].
  rewrite numbered_rows_cons, row_count_cons.
  destruct (excluded name); [done|].
  by rewrite length_app, length_imap, IH.
Qed.

Section FolderOrder.

Variable lower : pystr → pystr.
Variable shuffles : nat → list (nat * pystr) → list (nat * pystr).
Hypothesis shuffles_perm : ∀ n indexed, shuffles n indexed ≡ₚ indexed.

Implicit Types (st : Tally) (rows : list Row) (name : pystr)
  (files : list (pystr * list Row))
  (outcomes : list (pystr * pystr + SkipRecord)).

Lemma process_rows_outcomes calls name idx rows st :
  ∃ st' outcomes,
    process_rows lower shuffles calls name idx rows st = Returns st'
    ∧ rows_seen st' = (rows_seen st + length rows)%nat
    ∧ cards st' = cards st ++ cards_of outcomes
    ∧ skipped st' = skipped st ++ skips_of outcomes
    ∧ length outcomes = length rows
    ∧ ∀ i row o, rows !! i = Some row → outcomes !! i = Some o →
        row_outcome lower shuffles name (idx + i)
          (calls + rows_seen st + i) row o.
Proof.
  revert idx st. induction rows as [|row rest IH]; intros idx st.
  { exists st, []. simpl. rewrite !(right_id_L [] (++)).
    repeat split; try done; lia. }
  cbn [process_rows].
  assert (∀ i, (calls + S (rows_seen st) + i = calls + rows_seen st + S i)%nat)
    as Hcall by lia.
  assert (∀ i, (S idx + i = idx + S i)%nat) as Hidx by lia.
  destruct (process_row_two_ways lower (shuffles (calls + rows_seen st)) row
              (shuffles_perm _)) as [[c Hc]|[rs Hrs]].
  - rewrite Hc. cbn [mbind exc_bind].
    destruct (IH (S idx)
                {| cards := cards st ++ [c]; skipped := skipped st;
                   rows_seen := S (rows_seen st);
                   files_seen := files_seen st |})
      as (st' & outs & Hst' & Hrows & Hcards & Hskips & Hlen & Hout).
    cbn [cards skipped rows_seen files_seen] in *.
    exists st', (inl c :: outs). split; [done|].
    split; [simpl; lia|].
    split; [by rewrite Hcards, <- (assoc_L (++))|]. split; [done|].
    split; [simpl; lia|].
    intros [|i] row' o Hi Ho.
    + injection Hi as <-. injection Ho as <-.
      unfold row_outcome, row_card. by rewrite Nat.add_0_r.
    + rewrite <- Hcall, <- Hidx. by apply Hout.
  - rewrite Hrs. cbn [mbind exc_bind].
    set (rec := {| skip_file := name; skip_row := idx; skip_reason := Some rs;
                   skip_question :=
                     normalize (pick lower row [lit "Frage"; lit "Question"]) |}).
    destruct (IH (S idx)
                {| cards := cards st; skipped := skipped st ++ [rec];
                   rows_seen := S (rows_seen st);
                   files_seen := files_seen st |})
      as (st' & outs & Hst' & Hrows & Hcards & Hskips & Hlen & Hout).
    cbn [cards skipped rows_seen files_seen] in *.
    exists st', (inr rec :: outs). split; [done|].
    split; [simpl; lia|]. split; [done|].
    split; [by rewrite Hskips, <- (assoc_L (++))|].
    split; [simpl; lia|].
    intros [|i] row' o Hi Ho.
    + injection Hi as <-. injection Ho as <-.
      exists rs. by rewrite !Nat.add_0_r.
    + rewrite <- Hcall, <- Hidx. by apply Hout.
Qed.

Lemma process_files_outcomes calls files st :
  ∃ st' outcomes,
    process_files lower shuffles calls files st = Returns st'
    ∧ rows_seen st' = (rows_seen st + row_count files)%nat
    ∧ cards st' = cards st ++ cards_of outcomes
    ∧ skipped st' = skipped st ++ skips_of outcomes
    ∧ length outcomes = length (numbered_rows files)
    ∧ ∀ n name idx row o,
        numbered_rows files !! n = Some (name, idx, row) →
        outcomes !! n = Some o →
        row_outcome lower shuffles name idx (calls + rows_seen st + n) row o.
Proof.
  revert st. induction files as [|[name rows] rest IH]; intros st.
  { exists st, []. simpl. rewrite !(right_id_L [] (++)).
    repeat split; try done; try (unfold row_count; simpl; lia). }
  cbn [process_files]. rewrite row_count_cons, numbered_rows_cons.
  destruct (excluded name) eqn:Hex; [apply IH|].
  destruct (process_rows_outcomes calls name 2 rows
              {| cards := cards st; skipped := skipped st;
                 rows_seen := rows_seen st;
                 files_seen := S (files_seen st) |})
    as (st1 & outs1 & Hst1 & Hrows1 & Hcards1 & Hskips1 & Hlen1 & Hout1).
  cbn [cards skipped rows_seen files_seen] in *.
  rewrite Hst1. cbn [mbind exc_bind].
  destruct (IH st1)
    as (st' & outs & Hst' & Hrows & Hcards & Hskips & Hlen & Hout).
  exists st', (outs1 ++ outs). split; [done|]. split; [lia|].
  split.
  { unfold cards_of. rewrite omap_app. fold (cards_of outs1) (cards_of outs).
    by rewrite Hcards, Hcards1, <- (assoc_L (++)). }
  split.
  { unfold skips_of. rewrite omap_app. fold (skips_of outs1) (skips_of outs).
    by rewrite Hskips, Hskips1, <- (assoc_L (++)). }
  split; [rewrite !length_app, length_imap; lia|].
  intros n name' idx row o Hn Ho.
  destruct (decide (n < length rows)%nat) as [Hlt|Hge].
  - rewrite lookup_app_l in Hn by (by rewrite length_imap).
    rewrite lookup_app_l in Ho by lia.
    rewrite list_lookup_imap in Hn.
    destruct (rows !! n) as [row'|] eqn:Hrow; [|done].
    injection Hn as <- <- <-. by apply Hout1.
  - rewrite lookup_app_r in Hn by (rewrite length_imap; lia).
    rewrite lookup_app_r in Ho by lia.
    rewrite length_imap in Hn. rewrite Hlen1 in Ho.
    replace (calls + rows_seen st + n)%nat
      with (calls + rows_seen st1 + (n - length rows))%nat by lia.
    by apply Hout.
Qed.

End FolderOrder.

(** The output follows the input.  Number the rows of the processed files
    in the order of the listing, and in each file from its first row on:
    the rows leave, one for one and in this order, a card or a skip
    record; the import file holds the cards in this order, the skip file
    the records in this order.  A row of a file listed before another, or
    standing above another in one file, is never written below it. *)
Theorem folder_output_order
    (lower : pystr → pystr)
    (shuffles : nat → list (nat * pystr) → list (nat * pystr))
    (calls : nat) (files : list (pystr * list Row)) :
  (∀ n indexed, shuffles n indexed ≡ₚ indexed) →
  ∃ res outcomes,
    process_folder lower shuffles calls files = Returns res
    ∧ length outcomes = length (numbered_rows files)
    ∧ (∀ n name idx row o,
         numbered_rows files !! n = Some (name, idx, row) →
         outcomes !! n = Some o →
         row_outcome lower shuffles name idx (calls + n) row o)
    ∧ out_rows res = cards_of outcomes
    ∧ default [] (skip_rows res) = skips_of outcomes.
Proof.
  intros Hperm. unfold process_folder.
  destruct (process_files_outcomes lower shuffles Hperm calls files
              {| cards := []; skipped := []; rows_seen := 0;
                 files_seen := 0 |})
    as (st' & outs & Hst' & Hrows & Hcards & Hskips & Hlen & Hout).
  cbn [cards skipped rows_seen files_seen] in *. simpl in Hcards, Hskips.
  rewrite Hst'. cbn [mbind exc_bind]. eexists. exists outs.
  split; [done|]. cbn [out_rows skip_rows]. split; [done|].
  split.
  { intros n name idx row o Hn Ho.
    replace (calls + n)%nat with (calls + 0 + n)%nat by lia. by apply Hout. }
  split; [done|]. rewrite Hskips. by destruct (skips_of outs).
Qed.

Lemma folder_output_order_witness :
  ∃ res outcomes,
    process_folder lower_ascii shuffles_example 0 folder_example = Returns res
    ∧ length outcomes = length (numbered_rows folder_example)
    ∧ (∀ n name idx row o,
         numbered_rows folder_example !! n = Some (name, idx, row) →
         outcomes !! n = Some o →
         row_outcome lower_ascii shuffles_example name idx (0 + n) row o)
    ∧ out_rows res = cards_of outcomes
    ∧ default [] (skip_rows res) = skips_of outcomes.
Proof.
  apply (folder_output_order lower_ascii shuffles_example 0%nat
           folder_example).
  intros n indexed. apply random_shuffle_Permutation.
Defined.

(** ** The import file *)

(** The quoting of the writer leaves the faces of the cards as they are:
    the import file is, card after card, the front and the back as
    [process_row] built them, each between two double quotes, a semicolon
    between them and a carriage return and a line feed after them; and no
    face holds a double quote, so that the only double quotes of the file
    are those around the faces. *)
Theorem import_file_verbatim
    (lower : pystr → pystr)
    (shuffles : nat → list (nat * pystr) → list (nat * pystr))
    (calls : nat) (files : list (pystr * list Row)) :
  (∀ n indexed, shuffles n indexed ≡ₚ indexed) →
  ∃ res,
    process_folder lower shuffles calls files = Returns res
    ∧ out_file_text res
      = concat ((λ c, [dquote] ++ c.1 ++ [dquote] ++ lit ";" ++ [dquote]
                      ++ c.2 ++ [dquote] ++ [carriage_return; newline])
                  <$> out_rows res)
    ∧ Forall (λ c, (dquote ∉ c.1) ∧ (dquote ∉ c.2)) (out_rows res).
Proof.
  intros Hperm.
  destruct (process_folder_spec lower shuffles Hperm calls files)
    as (res & Hres & _ & _ & _ & _ & Hcards & _).
  exists res. split; [done|].
  assert (Forall (λ c, (dquote ∉ c.1) ∧ (dquote ∉ c.2)) (out_rows res))
    as Hdq.
  { eapply Forall_impl; [exact Hcards|].
    intros c (name & i & row & n & _ & Hcard).
    destruct (process_row_card_characters lower (shuffles n) row c
                (Hperm n) Hcard) as (H1 & H2 & _).
    done. }
  split; [|done].
  unfold out_file_text, writerows. rewrite <- list_fmap_compose.
  f_equal. apply Forall_fmap_ext. eapply Forall_impl; [exact Hdq|].
  intros [front back] [H1 H2]. cbn [fst snd] in *.
  unfold compose, writerow, quoted. cbn [fmap list_fmap join fst snd].
  rewrite !replace_absent by done.
  by rewrite <- !(assoc_L (++)).
Qed.

Lemma import_file_verbatim_witness :
  ∃ res,
    process_folder lower_ascii shuffles_example 0 folder_example = Returns res
    ∧ out_file_text res
      = concat ((λ c, [dquote] ++ c.1 ++ [dquote] ++ lit ";" ++ [dquote]
                      ++ c.2 ++ [dquote] ++ [carriage_return; newline])
                  <$> out_rows res)
    ∧ Forall (λ c, (dquote ∉ c.1) ∧ (dquote ∉ c.2)) (out_rows res).
Proof.
  apply (import_file_verbatim lower_ascii shuffles_example 0%nat
           folder_example).
  intros n indexed. apply random_shuffle_Permutation.
Defined.
